(** * hello-wordl, adversarial variant: the game engine of [src/Game.tsx]

    A shallow embedding of the target selector ([findNewWorstTarget],
    [guessesAreValidFor], [scoreClues]), of the handlers and the React
    effect that drive it, and of the render that follows each of them,
    followed by the properties of the specification that concern them.

    Conventions.
    - Words are [string]s; the word lists of the game are lower-case ASCII.
    - A JavaScript value that may be [undefined] is an [option]; a call
      that throws returns [None] in the functions whose result type is an
      [option] of the value the call would have returned.
    - Scores are sums of the constants 1 and 0.5.  Every such sum is a
      multiple of 0.5 far below 2^53, hence exact in IEEE doubles, and is
      represented here by the rational number it denotes.
    - [Math.random] is replaced by an explicit draw passed to every
      function that consumes one. *)

From Stdlib Require Import List String Ascii Bool Arith Lia.
From Stdlib Require Import ZArith QArith Permutation DecimalString.
Import ListNotations.

Local Open Scope nat_scope.
Local Open Scope string_scope.
Local Open Scope list_scope.

(** ** Clues *)

(** [enum Clue] of ./clue, in increasing order. *)
Inductive Clue : Type := Absent | Elsewhere | Correct.

Definition Clue_eqb (a b : Clue) : bool :=
  match a, b with
  | Absent, Absent | Elsewhere, Elsewhere | Correct, Correct => true
  | _, _ => false
  end.

Module CluedLetter.
Record t : Type := mk { clue : Clue; letter : ascii }.
End CluedLetter.

(** The clue components of a clue sequence. *)
Definition cluesOf (letters : list CluedLetter.t) : list Clue :=
  map CluedLetter.clue letters.

(** First pass of the clue engine: the letters of the target that the
    guess does not match exactly, in order of position. *)
Fixpoint unmatched (guess target : list ascii) : list ascii :=
  match target with
  | [] => []
  | c :: target' =>
      match guess with
      | [] => c :: unmatched [] target'
      | d :: guess' =>
          if Ascii.eqb d c then unmatched guess' target'
          else c :: unmatched guess' target'
      end
  end.

(** Consuming one instance of a letter from the letters still unmatched. *)
Fixpoint consume (c : ascii) (rest : list ascii) : option (list ascii) :=
  match rest with
  | [] => None
  | d :: rest' =>
      if Ascii.eqb c d then Some rest'
      else option_map (cons d) (consume c rest')
  end.

(** Second pass: the guess is scanned from left to right. *)
Fixpoint secondPass (guess target rest : list ascii) : list CluedLetter.t :=
  match guess with
  | [] => []
  | c :: guess' =>
      let exact := match target with d :: _ => Ascii.eqb c d | [] => false end in
      if exact then CluedLetter.mk Correct c :: secondPass guess' (tl target) rest
      else
        match consume c rest with
        | Some rest' => CluedLetter.mk Elsewhere c :: secondPass guess' (tl target) rest'
        | None => CluedLetter.mk Absent c :: secondPass guess' (tl target) rest
        end
  end.

(** Modelled from the spec: [clue] is imported from ./clue, which is not
    among the sources.  This is the duplicate-aware two-pass matching of
    section 4.1: exact matches first, then the remaining guess positions
    from left to right, each consuming an unmatched instance of its letter
    in the target when one is left. *)
Definition clue (guess target : string) : list CluedLetter.t :=
  let g := list_ascii_of_string guess in
  let t := list_ascii_of_string target in
  secondPass g t (unmatched g t).

(** Modelled from the spec: [pick] is imported from ./util, which is not
    among the sources.  It is the uniform choice of section 4.4 with the
    randomness injected: the draw [r] selects the element at index
    [r mod length].  An empty array has no element to return and yields
    [undefined]. *)
Definition pick {A : Type} (r : nat) (array : list A) : option A :=
  nth_error array (r mod List.length array).

(** ** Numbers *)

(** The values [Math.min] can return on a list of scores. *)
Inductive Num : Type := Finite (q : Q) | Infinity.

(** [Math.min(...scores)]: the least argument, [Infinity] when there is
    none. *)
Definition mathMin (scores : list Q) : Num :=
  fold_left
    (fun least s =>
       match least with
       | Infinity => Finite s
       | Finite q => if Qle_bool q s then Finite q else Finite s
       end)
    scores Infinity.

(** [score === minScore] for a score and a result of [Math.min]. *)
Definition strictEq (score : Q) (n : Num) : bool :=
  match n with
  | Finite q => Qeq_bool score q
  | Infinity => false
  end.

(** ** Array methods whose callback may throw *)

(** [array.every(callback)]: stops at the first element whose callback
    returns false; the callback receives the element and its index. *)
Fixpoint everyFrom {A : Type} (callback : A -> nat -> option bool)
    (idx : nat) (array : list A) : option bool :=
  match array with
  | [] => Some true
  | x :: array' =>
      match callback x idx with
      | None => None
      | Some false => Some false
      | Some true => everyFrom callback (S idx) array'
      end
  end.

Definition every {A : Type} (callback : A -> nat -> option bool)
    (array : list A) : option bool :=
  everyFrom callback 0 array.

(** [array.filter(callback)]. *)
Fixpoint filterThrowing {A : Type} (callback : A -> option bool)
    (array : list A) : option (list A) :=
  match array with
  | [] => Some []
  | x :: array' =>
      match callback x with
      | None => None
      | Some keep =>
          match filterThrowing callback array' with
          | None => None
          | Some kept => Some (if keep then x :: kept else kept)
          end
      end
  end.

(** ** The selector *)

(** [guessesAreValidFor], lines 67-73.  [oldTarget] is the [target] state
    variable, which holds [undefined] after [pick] ran on an empty array;
    the clue engine is specified on words only, so asking it for the clues
    against [undefined] throws.  Reading [.clue] of [oldClues[idx]] throws
    when [idx] is out of range. *)
Definition guessesAreValidFor (guesses : list string)
    (newTarget : string) (oldTarget : option string) : option bool :=
  every
    (fun g _ =>
       let newClues := clue g newTarget in
       match oldTarget with
       | None => None
       | Some old =>
           let oldClues := clue g old in
           every
             (fun c idx =>
                match nth_error oldClues idx with
                | None => None
                | Some o =>
                    Some (Clue_eqb (CluedLetter.clue c) (CluedLetter.clue o))
                end)
             newClues
       end)
    guesses.

Definition yellowRank : Q := 1 # 2.
Definition greenRank : Q := 1.

(** [scoreClues], lines 75-89. *)
Definition scoreClues (guesses : list string) (tar : string) : Q :=
  fold_left
    (fun (scoreTotal : Q) guess =>
       let letters := clue guess tar in
       fold_left
         (fun (scoreTotal : Q) l =>
            match CluedLetter.clue l with
            | Correct => (scoreTotal + greenRank)%Q
            | Elsewhere => (scoreTotal + yellowRank)%Q
            | Absent => scoreTotal
            end)
         letters scoreTotal)
    guesses 0%Q.

(** What one run of [findNewWorstTarget] produces: the value it returns
    and passes to [setTarget], the array it passes to [setTargets], the
    minimum it computed and the number it writes to the console. *)
Record Reselection : Type := mkReselection {
  newTarget : option string;
  leastHelpful : list string;
  minScore : Num;
  logged : nat
}.

(** [findNewWorstTarget], lines 46-65, as a function of the state variables
    it reads ([targets], [target], [guesses]) and of the draw of [pick]. *)
Definition findNewWorstTarget (targets : list string) (target : option string)
    (guesses : list string) (r : nat) : option Reselection :=
  match filterThrowing (fun tar => guessesAreValidFor guesses tar target) targets with
  | None => None
  | Some allValidTargets =>
      let mapped := map (fun t => (t, scoreClues guesses t)) allValidTargets in
      let scores := map snd mapped in
      let minScore := mathMin scores in
      let leastHelpful :=
        map fst (filter (fun tar => strictEq (snd tar) minScore) mapped) in
      let newTarget := pick r leastHelpful in
      Some (mkReselection newTarget leastHelpful minScore (List.length leastHelpful))
  end.

(** ** The game component *)

(** [enum GameState], lines 10-14. *)
Inductive GameState : Type := Playing | Won | Lost.

Definition GameState_eqb (a b : GameState) : bool :=
  match a, b with
  | Playing, Playing | Won, Won | Lost, Lost => true
  | _, _ => false
  end.

(** [interface GameProps], lines 16-19. *)
Record GameProps : Type := mkProps { maxGuesses : nat; hidden : bool }.

(** The state variables of [Game], lines 30-36.  [target] is declared a
    string and holds [undefined] once [pick] has run on an empty array. *)
Record State : Type := mkState {
  gameState : GameState;
  guesses : list string;
  currentGuess : string;
  wordLength : nat;
  hint : string;
  targets : list string;
  target : option string
}.

Definition setGameState (v : GameState) (st : State) : State :=
  mkState v (guesses st) (currentGuess st) (wordLength st) (hint st)
    (targets st) (target st).
Definition setGuesses (v : list string) (st : State) : State :=
  mkState (gameState st) v (currentGuess st) (wordLength st) (hint st)
    (targets st) (target st).
Definition setCurrentGuess (v : string) (st : State) : State :=
  mkState (gameState st) (guesses st) v (wordLength st) (hint st)
    (targets st) (target st).
Definition setWordLength (v : nat) (st : State) : State :=
  mkState (gameState st) (guesses st) (currentGuess st) v (hint st)
    (targets st) (target st).
Definition setHint (v : string) (st : State) : State :=
  mkState (gameState st) (guesses st) (currentGuess st) (wordLength st) v
    (targets st) (target st).
Definition setTargets (v : list string) (st : State) : State :=
  mkState (gameState st) (guesses st) (currentGuess st) (wordLength st)
    (hint st) v (target st).
Definition setTarget (v : option string) (st : State) : State :=
  mkState (gameState st) (guesses st) (currentGuess st) (wordLength st)
    (hint st) (targets st) v.

(** *** String helpers *)

Definition includes (array : list string) (word : string) : bool :=
  existsb (String.eqb word) array.

(** The characters from a to z. *)
Definition isLowercase (c : ascii) : bool :=
  (nat_of_ascii "a"%char <=? nat_of_ascii c)%nat
  && (nat_of_ascii c <=? nat_of_ascii "z"%char)%nat.

(** [/^[a-z]$/.test(key)]. *)
Definition isLowercaseLetter (key : string) : bool :=
  match key with
  | String c EmptyString =>
      isLowercase c
  | _ => false
  end.

(** [s.slice(0, n)] for a non-negative [n]. *)
Definition sliceTo (n : nat) (s : string) : string := substring 0 n s.

(** [s.slice(0, -1)]. *)
Definition dropLast (s : string) : string :=
  substring 0 (String.length s - 1) s.

Definition upperAscii (c : ascii) : ascii :=
  if isLowercase c
  then ascii_of_nat (nat_of_ascii c - 32)
  else c.

(** [s.toUpperCase()] on ASCII text. *)
Fixpoint toUpperCase (s : string) : string :=
  match s with
  | EmptyString => EmptyString
  | String c s' => String (upperAscii c) (toUpperCase s')
  end.

(** A number inside a template literal. *)
Definition numberToString (n : nat) : string :=
  NilEmpty.string_of_uint (Nat.to_uint n).

Definition wonHint : string := "You won! (Enter to play again)".
Definition lostHint (answer : string) : string :=
  "You lost! The answer was " ++ toUpperCase answer ++ ". (Enter to play again)".
Definition gaveUpHint (answer : string) : string :=
  "The answer was " ++ toUpperCase answer ++ ". (Enter to play again)".

(** What the user can do to the component: a key, from the keyboard or
    from the on-screen keyboard; moving the length slider; the give-up
    button. *)
Inductive Event : Type :=
| Key (key : string)
| SetLength (length : nat)
| GiveUp.

(** ** Rendering *)

(** The numeric value of a clue, which line 158 compares with [>].
    Modelled from the spec: [enum Clue] is declared in ./clue, which is
    not among the sources; its order is the one of section 3,
    Correct > Elsewhere > Absent. *)
Definition clueRank (c : Clue) : nat :=
  match c with
  | Absent => 0
  | Elsewhere => 1
  | Correct => 2
  end.

(** [Map<string, Clue>], line 147: the entries in insertion order; the
    keys are the letters of the guesses. *)
Definition LetterInfo : Type := list (ascii * Clue).

(** [letterInfo.get(letter)]. *)
Fixpoint mapGet (letter : ascii) (info : LetterInfo) : option Clue :=
  match info with
  | [] => None
  | (k, v) :: info' => if Ascii.eqb letter k then Some v else mapGet letter info'
  end.

(** [letterInfo.set(letter, clue)]: an existing key keeps its place. *)
Fixpoint mapSet (letter : ascii) (c : Clue) (info : LetterInfo) : LetterInfo :=
  match info with
  | [] => [(letter, c)]
  | (k, v) :: info' =>
      if Ascii.eqb letter k then (k, c) :: info'
      else (k, v) :: mapSet letter c info'
  end.

(** The body of the loop of lines 155-161 for one clued letter.  The clue
    engine of the specification gives every letter a clue, so the [break]
    of line 156 is never taken. *)
Definition noteLetter (info : LetterInfo) (l : CluedLetter.t) : LetterInfo :=
  match mapGet (CluedLetter.letter l) info with
  | None => mapSet (CluedLetter.letter l) (CluedLetter.clue l) info
  | Some old =>
      if (clueRank old <? clueRank (CluedLetter.clue l))%nat
      then mapSet (CluedLetter.letter l) (CluedLetter.clue l) info
      else info
  end.

(** [enum RowState] of ./Row, as far as [Game] uses it. *)
Inductive RowState : Type := LockedIn | Pending.

(** The properties [Game] gives to a [Row], lines 164-169. *)
Module RowProps.
Record t : Type := mk {
  key : nat;
  wordLength : nat;
  rowState : RowState;
  cluedLetters : list CluedLetter.t
}.
End RowProps.

(** The callback of the [map] of lines 150-171 for the row of index [i],
    against a defined target: the row and the letter information after
    it. *)
Definition renderRow (st : State) (tg : string) (info : LetterInfo) (i : nat)
  : RowProps.t * LetterInfo :=
  let guess :=
    match nth_error (guesses st ++ [currentGuess st]) i with
    | Some g => g
    | None => ""
    end in
  let cluedLetters := clue guess tg in
  let lockedIn := (i <? List.length (guesses st))%nat in
  (RowProps.mk i (wordLength st) (if lockedIn then LockedIn else Pending)
     cluedLetters,
   if lockedIn then fold_left noteLetter cluedLetters info else info).

(** The rows of the indices given, in order; the clue engine throws on an
    undefined target. *)
Fixpoint renderRows (st : State) (indices : list nat) (info : LetterInfo)
  : option (list RowProps.t * LetterInfo) :=
  match indices with
  | [] => Some ([], info)
  | i :: indices' =>
      match target st with
      | None => None
      | Some tg =>
          let (row, info') := renderRow st tg info i in
          match renderRows st indices' info' with
          | None => None
          | Some (rows, info'') => Some (row :: rows, info'')
          end
      end
  end.

(** Lines 147-171: the rows of the grid and the letter information the
    keyboard receives. *)
Definition render (props : GameProps) (st : State)
  : option (list RowProps.t * LetterInfo) :=
  renderRows st (seq 0 (maxGuesses props)) [].

Section Game.

(** The word lists, which are data files outside the sources:
    dictionary.json, common.json and the names of ./names. *)
Variable dictionary : list string.
Variable common : list string.
Variable names : list string.

(** The module-level constant [targets], lines 21-23, which the state
    variable of the same name shadows inside [Game].
    Modelled from the spec: [dictionarySet] is imported from ./util,
    which is not among the sources; it is the Dictionary as a set. *)
Definition candidates : list string :=
  filter (fun word => includes dictionary word && negb (includes names word))
    (firstn (Z.to_nat 20000) common).

(** [allTargets], lines 25-27. *)
Definition allTargets (wordLength : nat) : list string :=
  filter (fun word => (String.length word =? wordLength)%nat) candidates.

Variable props : GameProps.

(** [reset], lines 38-44.  [targets] is the state variable. *)
Definition reset (r : nat) (st : State) : State :=
  setGameState Playing
    (setHint ""
       (setCurrentGuess ""
          (setGuesses [] (setTarget (pick r (targets st)) st)))).

(** [onKey], lines 91-128.  The result is the state once the queued
    updates are applied, with a flag telling whether [setGuesses] was
    called, that is, whether the next render sees a new [guesses] array;
    [None] when the handler throws, which it does when it has to print a
    target that is [undefined].  [r] is the draw of the [pick] in
    [reset]. *)
Definition onKey (r : nat) (key : string) (st : State) : option (State * bool) :=
  if negb (GameState_eqb (gameState st) Playing) then
    if key =? "Enter" then Some (reset r st, true) else Some (st, false)
  else if (List.length (guesses st) =? maxGuesses props)%nat then Some (st, false)
  else if isLowercaseLetter key then
    Some (setHint ""
            (setCurrentGuess (sliceTo (wordLength st) (currentGuess st ++ key)) st),
          false)
  else if key =? "Backspace" then
    Some (setHint "" (setCurrentGuess (dropLast (currentGuess st)) st), false)
  else if key =? "Enter" then
    if negb (String.length (currentGuess st) =? wordLength st)%nat then
      Some (setHint "Too short" st, false)
    else if negb (includes dictionary (currentGuess st)) then
      Some (setHint "Not a valid word" st, false)
    else
      let committed :=
        setCurrentGuess "" (setGuesses (guesses st ++ [currentGuess st]) st) in
      if match target st with
         | Some t => currentGuess st =? t
         | None => false
         end
      then Some (setGameState Won (setHint wonHint committed), true)
      else if (List.length (guesses st) + 1 =? maxGuesses props)%nat then
        match target st with
        | Some t => Some (setGameState Lost (setHint (lostHint t) committed), true)
        | None => None
        end
      else Some (setHint "" committed, true)
  else Some (st, false).

(** The effect of lines 142-145, which React runs after every render
    whose [guesses] array is not the one of the previous render.  The
    second component is what the run writes to the console. *)
Definition guessesEffect (r : nat) (st : State) : option (State * list nat) :=
  match findNewWorstTarget (targets st) (target st) (guesses st) r with
  | None => None
  | Some sel =>
      Some (setTarget (newTarget sel)
              (setTargets (leastHelpful sel) (setTarget (newTarget sel) st)),
            [logged sel])
  end.

(** The [onChange] handler of the length slider, lines 184-191. *)
Definition onChange (r : nat) (length : nat) (st : State) : State :=
  let newTargets := allTargets length in
  setHint (numberToString length ++ " letters")
    (setWordLength length
       (setTarget (pick r newTargets) (setTargets newTargets st))).

(** The [onClick] handler of the give-up button, lines 196-202. *)
Definition onClick (st : State) : option State :=
  match target st with
  | Some t => Some (setGameState Lost (setHint (gaveUpHint t) st))
  | None => None
  end.

(** The [disabled] attribute of the slider, line 182, and its range,
    lines 179-180. *)
Definition sliderDisabled (st : State) : bool :=
  (0 <? List.length (guesses st))%nat || negb (currentGuess st =? "").

Definition sliderRange (length : nat) : bool :=
  (4 <=? length)%nat && (length <=? 11)%nat.

(** The [disabled] attribute of the give-up button, line 195. *)
Definition giveUpDisabled (st : State) : bool :=
  negb (GameState_eqb (gameState st) Playing) || (List.length (guesses st) =? 0)%nat.

(** The events the rendered component accepts in a state. *)
Definition enabled (st : State) (ev : Event) : bool :=
  match ev with
  | Key _ => true
  | SetLength length => negb (sliderDisabled st) && sliderRange length
  | GiveUp => negb (giveUpDisabled st)
  end.

(** The component renders a state: a render that throws unmounts the
    component, and nothing follows it. *)
Definition rendered (st : State) (out : list nat) : option (State * list nat) :=
  match render props st with
  | None => None
  | Some _ => Some (st, out)
  end.

(** One event, handled to completion: the handler runs and the component
    renders the state it leaves; when the handler replaced [guesses], the
    effect runs after that render and the component renders again.  [r1]
    is the draw of the handler and [r2] the draw of the effect.  The
    result is the state on screen when the component waits for the next
    event, with the console output of the event; [None] when the handler,
    a render or the effect throws.  A handler that queues no update causes
    no render: the state it leaves is the state that is on screen, whose
    render returned, so that rendering it once more changes nothing. *)
Definition dispatch (r1 r2 : nat) (ev : Event) (st : State)
  : option (State * list nat) :=
  match ev with
  | Key key =>
      match onKey r1 key st with
      | None => None
      | Some (st1, changed) =>
          match render props st1 with
          | None => None
          | Some _ =>
              if changed then
                match guessesEffect r2 st1 with
                | None => None
                | Some (st2, out) => rendered st2 out
                end
              else Some (st1, [])
          end
      end
  | SetLength length => rendered (onChange r1 length st) []
  | GiveUp =>
      match onClick st with
      | None => None
      | Some st1 => rendered st1 []
      end
  end.

(** The state of the first render, lines 30-36. *)
Definition firstRender (r : nat) : State :=
  mkState Playing [] "" 5 "Make your first guess!"
    (allTargets 5) (pick r (allTargets 5)).

(** Mounting the component: the first render, then the first run of the
    effect and the render that follows it. *)
Definition mount (r1 r2 : nat) : option (State * list nat) :=
  match render props (firstRender r1) with
  | None => None
  | Some _ =>
      match guessesEffect r2 (firstRender r1) with
      | None => None
      | Some (st1, out) => rendered st1 out
      end
  end.

(** The states of a mounted component between two events. *)
Inductive reachable : State -> Prop :=
| reachable_mount r1 r2 st out :
    mount r1 r2 = Some (st, out) -> reachable st
| reachable_dispatch r1 r2 ev st st' out :
    reachable st -> enabled st ev = true ->
    dispatch r1 r2 ev st = Some (st', out) -> reachable st'.

(** What holds of the input row and of the locked guesses whenever the
    component waits for an event. *)
Definition Rows (st : State) : Prop :=
  (String.length (currentGuess st) <= wordLength st)%nat
  /\ Forall (fun c => isLowercase c = true)
       (list_ascii_of_string (currentGuess st))
  /\ Forall (fun g => String.length g = wordLength st /\ In g dictionary)
       (guesses st)
  /\ (List.length (guesses st) <= maxGuesses props)%nat.

(** A sequence of events, each with the draws it may consume, handled in
    order from a state; [None] when an event is not accepted or throws. *)
Fixpoint run (events : list (Event * (nat * nat))) (st : State) : option State :=
  match events with
  | [] => Some st
  | (ev, (r1, r2)) :: events' =>
      if enabled st ev then
        match dispatch r1 r2 ev st with
        | Some (st', _) => run events' st'
        | None => None
        end
      else None
  end.

(** What holds of the state variables whenever the component waits for
    an event. *)
Record Inv (st : State) : Prop := mkInv {
  inv_target_in_pool :
    forall tg, target st = Some tg -> In tg (targets st);
  inv_target_undefined :
    target st = None -> targets st = [];
  inv_pool_candidates :
    incl (targets st) (allTargets (wordLength st));
  inv_playing :
    0 < maxGuesses props -> gameState st = Playing ->
    List.length (guesses st) < maxGuesses props;
  inv_finished :
    gameState st <> Playing -> guesses st <> [];
  inv_consistent :
    forall g t, In g (guesses st) -> In t (targets st) ->
    exists tg, target st = Some tg
               /\ cluesOf (clue g t) = cluesOf (clue g tg)
}.

End Game.

(** The key events that type a word, with the draws of the events that
    follow a commit. *)
Definition typeWord (r : nat) (word : string) : list (Event * (nat * nat)) :=
  map (fun c => (Key (String c EmptyString), (r, r))) (list_ascii_of_string word).

Definition pressEnter (r1 r2 : nat) : list (Event * (nat * nat)) :=
  [(Key "Enter", (r1, r2))].

(** ** Definitions used in the statements *)

Definition Clue_eq_dec (a b : Clue) : {a = b} + {a <> b}.
Proof. decide equality. Defined.

(** Two clue sequences carry the same clues, whatever their letters. *)
Definition sameClues (newClues oldClues : list CluedLetter.t) : bool :=
  if list_eq_dec Clue_eq_dec (cluesOf newClues) (cluesOf oldClues)
  then true else false.

(** A candidate gives, for every guess of the history, the clues the
    current target gives. *)
Definition consistent (guesses : list string) (old : string) (tar : string) : bool :=
  forallb (fun g => sameClues (clue g tar) (clue g old)) guesses.

(** The contribution of one clue to the score, in the words of section
    4.3 of the specification. *)
Definition clueValue (c : Clue) : Q :=
  match c with
  | Correct => 1
  | Elsewhere => 1 # 2
  | Absent => 0
  end.

Definition Qsum (l : list Q) : Q := fold_right Qplus 0%Q l.

(** The score of section 4.3: the sum, over the guesses of the history and
    over the positions of each guess, of the value of the clue. *)
Definition score (candidate : string) (history : list string) : Q :=
  Qsum (map (fun g =>
               Qsum (map (fun l => clueValue (CluedLetter.clue l))
                       (clue g candidate)))
          history).

(** The guard section 7 of the specification asks of the selector when
    the valid subset is empty: the run is refused, or it falls back to the
    full candidate list, that is, it yields that list as the new pool, a
    target from it and a finite minimum. *)
Definition refusesOrFallsBack (full : list string)
    (outcome : option Reselection) : Prop :=
  outcome = None
  \/ exists sel nt,
       outcome = Some sel /\ leastHelpful sel = full
       /\ newTarget sel = Some nt /\ In nt full
       /\ minScore sel <> Infinity.

(** What the keyboard is told about the letters of a list of clued
    letters: a letter has no entry exactly when it does not occur, and the
    entry of a letter that occurs is the clue of one of its occurrences
    that no other occurrence exceeds. *)
Definition bestClues (info : LetterInfo) (letters : list CluedLetter.t) : Prop :=
  forall c,
    (mapGet c info = None <->
     forall l, In l letters -> CluedLetter.letter l <> c)
    /\ (forall k, mapGet c info = Some k ->
        (exists l, In l letters /\ CluedLetter.letter l = c
                   /\ CluedLetter.clue l = k)
        /\ (forall l, In l letters -> CluedLetter.letter l = c ->
            clueRank (CluedLetter.clue l) <= clueRank k)).

(** The clued letters of the locked guesses against a target, row after
    row. *)
Definition lockedLetters (st : State) (tg : string) : list CluedLetter.t :=
  List.concat (map (fun g => clue g tg) (guesses st)).

(** Word lists and properties for the examples. *)
Definition demoDictionary : list string :=
  ["apple"; "angle"; "ankle"; "maple"; "abracadabra"; "zzzzz"].
Definition demoCommon : list string :=
  ["the"; "apple"; "angle"; "ankle"; "maple"; "james"].
Definition demoNames : list string := ["james"].
Definition demoProps : GameProps := mkProps 6 false.

Definition demoMount (r1 r2 : nat) : option (State * list nat) :=
  mount demoDictionary demoCommon demoNames demoProps r1 r2.
Definition demoRun (events : list (Event * (nat * nat))) (st : State)
  : option State :=
  run demoDictionary demoCommon demoNames demoProps events st.
Definition demoDispatch (r1 r2 : nat) (ev : Event) (st : State)
  : option (State * list nat) :=
  dispatch demoDictionary demoCommon demoNames demoProps r1 r2 ev st.

(** Word lists without a five-letter candidate, and a grid without
    rows. *)
Definition sparseDictionary : list string := ["abracadabra"].
Definition sparseCommon : list string := ["abracadabra"].
Definition noRowsProps : GameProps := mkProps 0 false.

(** Word lists with candidates of two lengths. *)
Definition mixedDictionary : list string :=
  ["word"; "apple"; "angle"; "ankle"; "maple"].
Definition mixedCommon : list string :=
  ["word"; "apple"; "angle"; "ankle"; "maple"].

(** The state of the examples after the component is mounted. *)
Definition demoStart : State :=
  mkState Playing [] "" 5 "Make your first guess!"
    ["apple"; "angle"; "ankle"; "maple"] (Some "apple").

(** * Properties *)

Example clue_apple_angle :
  cluesOf (clue "apple" "angle") = [Correct; Absent; Absent; Correct; Correct].
Proof. reflexivity. Qed.

Example clue_duplicate_letters :
  cluesOf (clue "llama" "hello") = [Elsewhere; Elsewhere; Absent; Absent; Absent].
Proof. reflexivity. Qed.

Example select_after_apple :
  findNewWorstTarget ["apple"; "angle"; "ankle"; "maple"] (Some "angle") ["apple"] 1
  = Some (mkReselection (Some "ankle") ["angle"; "ankle"] (Finite (3 # 1)) 2).
Proof. vm_compute. reflexivity. Qed.


(** ** The clue engine *)

Lemma secondPass_length guess : forall target rest,
  List.length (secondPass guess target rest) = List.length guess.
Proof.
  induction guess as [|c guess IH]; intros target rest; simpl; [reflexivity|].
  destruct (match target with [] => false | d :: _ => Ascii.eqb c d end);
    [|destruct (consume c rest)]; simpl; now rewrite IH.
Qed.

Lemma clue_length guess target :
  List.length (clue guess target) = String.length guess.
Proof.
  unfold clue. rewrite secondPass_length.
  induction guess; simpl; congruence.
Qed.

Lemma secondPass_self w : forall rest,
  cluesOf (secondPass w w rest) = repeat Correct (List.length w).
Proof.
  induction w as [|c w IH]; intros rest; simpl; [reflexivity|].
  rewrite Ascii.eqb_refl. simpl. now rewrite IH.
Qed.

Lemma secondPass_all_correct w : forall t rest,
  List.length t = List.length w ->
  cluesOf (secondPass w t rest) = repeat Correct (List.length w) ->
  t = w.
Proof.
  induction w as [|c w IH]; intros [|d t] rest Hlen H; simpl in *;
    try discriminate; [reflexivity|].
  destruct (Ascii.eqb c d) eqn:E.
  - apply Ascii.eqb_eq in E. subst d. simpl in H. f_equal.
    apply (IH t rest); [lia | congruence].
  - destruct (consume c rest); simpl in H; discriminate.
Qed.

Lemma length_list_ascii_of_string s :
  List.length (list_ascii_of_string s) = String.length s.
Proof. induction s; simpl; congruence. Qed.

Lemma list_ascii_of_string_inj s t :
  list_ascii_of_string s = list_ascii_of_string t -> s = t.
Proof.
  intros H. rewrite <- (string_of_list_ascii_of_string s),
    <- (string_of_list_ascii_of_string t). now rewrite H.
Qed.

(** A word clued against itself is correct at every position. *)
Lemma clue_self w :
  cluesOf (clue w w) = repeat Correct (String.length w).
Proof.
  unfold clue. rewrite secondPass_self. now rewrite length_list_ascii_of_string.
Qed.

(** Only the guess itself answers a guess with correct at every position,
    among the words of its length. *)
Lemma clue_all_correct w t :
  String.length t = String.length w ->
  cluesOf (clue w t) = cluesOf (clue w w) -> t = w.
Proof.
  intros Hlen H. rewrite clue_self in H. unfold clue in H.
  apply list_ascii_of_string_inj.
  rewrite <- (length_list_ascii_of_string w) in H.
  apply secondPass_all_correct in H; [assumption|].
  now rewrite !length_list_ascii_of_string.
Qed.

Lemma sameClues_true a b : sameClues a b = true <-> cluesOf a = cluesOf b.
Proof.
  unfold sameClues. destruct (list_eq_dec _ _ _); split; congruence.
Qed.

Lemma Clue_eqb_eq a b : Clue_eqb a b = true <-> a = b.
Proof. destruct a, b; simpl; split; congruence. Qed.

Lemma sameClues_cons c newClues o oldClues :
  sameClues (c :: newClues) (o :: oldClues)
  = Clue_eqb (CluedLetter.clue c) (CluedLetter.clue o)
    && sameClues newClues oldClues.
Proof.
  apply eq_true_iff_eq.
  rewrite andb_true_iff, !sameClues_true, Clue_eqb_eq. simpl.
  split; [intros [= ? ?]; auto | intros [? ?]; congruence].
Qed.

Lemma sameClues_refl a : sameClues a a = true.
Proof. now apply sameClues_true. Qed.

Lemma consistent_true guesses old tar :
  consistent guesses old tar = true <->
  forall g, In g guesses -> cluesOf (clue g tar) = cluesOf (clue g old).
Proof.
  unfold consistent. rewrite forallb_forall.
  split; intros H g Hg; apply sameClues_true; auto.
Qed.

Lemma consistent_refl guesses old : consistent guesses old old = true.
Proof. apply consistent_true. reflexivity. Qed.

(** ** The array methods *)

Lemma everyFrom_total {A} (f : A -> bool) (array : list A) : forall idx,
  everyFrom (fun x _ => Some (f x)) idx array = Some (forallb f array).
Proof.
  induction array as [|x array IH]; intros idx; simpl; [reflexivity|].
  destruct (f x); simpl; [apply IH | reflexivity].
Qed.

Lemma everyFrom_ext {A} (f g : A -> nat -> option bool) (array : list A) :
  (forall x idx, In x array -> f x idx = g x idx) ->
  forall idx, everyFrom f idx array = everyFrom g idx array.
Proof.
  induction array as [|x array IH]; intros H idx; simpl; [reflexivity|].
  rewrite (H x idx) by now left.
  destruct (g x idx) as [[|]|]; try reflexivity.
  apply IH. intros; apply H; now right.
Qed.

Lemma filterThrowing_total {A} (f : A -> bool) (array : list A) :
  filterThrowing (fun x => Some (f x)) array = Some (filter f array).
Proof.
  induction array as [|x array IH]; simpl; [reflexivity|].
  rewrite IH. reflexivity.
Qed.

Lemma filterThrowing_ext {A} (f g : A -> option bool) (array : list A) :
  (forall x, In x array -> f x = g x) ->
  filterThrowing f array = filterThrowing g array.
Proof.
  induction array as [|x array IH]; intros H; simpl; [reflexivity|].
  rewrite (H x) by now left. rewrite IH; [reflexivity|].
  intros; apply H; now right.
Qed.

Lemma filterThrowing_In {A} (f : A -> option bool) (array kept : list A) :
  filterThrowing f array = Some kept ->
  forall x, In x kept <-> In x array /\ f x = Some true.
Proof.
  revert kept. induction array as [|x array IH]; simpl; intros kept H y.
  - injection H as <-. simpl. tauto.
  - destruct (f x) as [keep|] eqn:Ex; [|discriminate].
    destruct (filterThrowing f array) as [kept'|]; [|discriminate].
    injection H as <-. specialize (IH kept' eq_refl y).
    destruct keep; simpl; rewrite ?IH; split.
    + intros [<-|[? ?]]; auto.
    + intros [[<-|?] ?]; auto.
    + intros [? ?]; auto.
    + intros [[<-|?] ?]; [congruence|auto].
Qed.

Lemma filterThrowing_length {A} (f : A -> option bool) (array kept : list A) :
  filterThrowing f array = Some kept -> List.length kept <= List.length array.
Proof.
  revert kept. induction array as [|x array IH]; simpl; intros kept H.
  - injection H as <-. simpl. lia.
  - destruct (f x) as [keep|]; [|discriminate].
    destruct (filterThrowing f array) as [kept'|]; [|discriminate].
    injection H as <-. specialize (IH kept' eq_refl).
    destruct keep; simpl; lia.
Qed.

(** ** The uniform choice *)

Lemma pick_In {A} r (array : list A) x : pick r array = Some x -> In x array.
Proof. unfold pick. apply nth_error_In. Qed.

Lemma pick_nonempty {A} r (array : list A) :
  array <> [] -> exists x, pick r array = Some x.
Proof.
  intros H. unfold pick.
  destruct (nth_error array (r mod List.length array)) eqn:E; [eauto|].
  apply nth_error_None in E.
  assert (List.length array <> 0) by (destruct array; simpl; congruence).
  pose proof (Nat.mod_upper_bound r (List.length array)). lia.
Qed.

Lemma pick_nil {A} r : pick r (@nil A) = None.
Proof. unfold pick. simpl. now destruct r. Qed.

Lemma pick_None {A} r (array : list A) : pick r array = None -> array = [].
Proof.
  intros H. destruct array as [|x array]; [reflexivity|].
  destruct (pick_nonempty r (x :: array)) as [y Hy]; congruence.
Qed.

(** ** The consistency check *)

(** Clue sequences of equal length are compared position by position
    without ever reading past the end of the old one. *)
Lemma every_clue_matches newClues : forall oldClues seen,
  List.length newClues = List.length oldClues ->
  everyFrom
    (fun c idx =>
       match nth_error (seen ++ oldClues) idx with
       | None => None
       | Some o => Some (Clue_eqb (CluedLetter.clue c) (CluedLetter.clue o))
       end)
    (List.length seen) newClues
  = Some (sameClues newClues oldClues).
Proof.
  induction newClues as [|c newClues IH]; intros [|o oldClues] seen Hlen;
    simpl in Hlen; try discriminate.
  - reflexivity.
  - simpl. rewrite nth_error_app2 by lia. rewrite Nat.sub_diag. simpl.
    specialize (IH oldClues (seen ++ [o])).
    rewrite <- app_assoc, length_app in IH. simpl in IH.
    rewrite Nat.add_1_r in IH.
    rewrite sameClues_cons.
    destruct (Clue_eqb (CluedLetter.clue c) (CluedLetter.clue o)); simpl;
      [apply IH; lia | reflexivity].
Qed.

(** With a defined target the check never throws and decides
    [consistent]. *)
Lemma guessesAreValidFor_defined guesses tar old :
  guessesAreValidFor guesses tar (Some old) = Some (consistent guesses old tar).
Proof.
  unfold guessesAreValidFor, every, consistent.
  rewrite <- everyFrom_total with (idx := 0).
  apply everyFrom_ext. intros g idx _.
  apply (every_clue_matches (clue g tar) (clue g old) []).
  now rewrite !clue_length.
Qed.

(** Without guesses the check accepts every candidate, whatever the
    target. *)
Lemma guessesAreValidFor_no_guess tar target :
  guessesAreValidFor [] tar target = Some true.
Proof. reflexivity. Qed.

(** With guesses and an undefined target the check throws. *)
Lemma guessesAreValidFor_undefined g guesses tar :
  guessesAreValidFor (g :: guesses) tar None = None.
Proof. reflexivity. Qed.

(** What an accepted candidate satisfies. *)
Lemma guessesAreValidFor_true guesses tar target :
  guessesAreValidFor guesses tar target = Some true ->
  guesses = [] \/
  exists old, target = Some old /\ consistent guesses old tar = true.
Proof.
  destruct target as [old|].
  - rewrite guessesAreValidFor_defined. intros [= H]. right; eauto.
  - destruct guesses; [now left | discriminate].
Qed.

(** ** The scorer *)

Lemma score_letters_sum letters : forall total : Q,
  (fold_left
     (fun (scoreTotal : Q) l =>
        match CluedLetter.clue l with
        | Correct => scoreTotal + greenRank
        | Elsewhere => scoreTotal + yellowRank
        | Absent => scoreTotal
        end)
     letters total
   == total + Qsum (map (fun l => clueValue (CluedLetter.clue l)) letters))%Q.
Proof.
  induction letters as [|l letters IH]; intros total; simpl.
  - ring.
  - rewrite IH. unfold greenRank, yellowRank.
    destruct (CluedLetter.clue l); simpl; ring.
Qed.

Lemma score_guesses_sum tar guesses : forall total : Q,
  (fold_left
     (fun (scoreTotal : Q) guess =>
        let letters := clue guess tar in
        fold_left
          (fun (scoreTotal : Q) l =>
             match CluedLetter.clue l with
             | Correct => scoreTotal + greenRank
             | Elsewhere => scoreTotal + yellowRank
             | Absent => scoreTotal
             end)
          letters scoreTotal)
     guesses total
   == total + score tar guesses)%Q.
Proof.
  unfold score.
  induction guesses as [|g guesses IH]; intros total; simpl.
  - ring.
  - rewrite IH. cbv zeta. rewrite score_letters_sum. ring.
Qed.

(** The accumulating loops of [scoreClues] compute the sum of the
    specification. *)
Lemma scoreClues_sum guesses tar : (scoreClues guesses tar == score tar guesses)%Q.
Proof. unfold scoreClues. rewrite score_guesses_sum. ring. Qed.

Lemma clueValue_nonneg c : (0 <= clueValue c)%Q.
Proof. destruct c; simpl; discriminate. Qed.

Lemma Qsum_nonneg l : (forall x, In x l -> 0 <= x)%Q -> (0 <= Qsum l)%Q.
Proof.
  induction l as [|x l IH]; intros H; simpl.
  - apply Qle_refl.
  - replace 0%Q with (0 + 0)%Q by reflexivity.
    apply Qplus_le_compat; [apply H; now left|].
    apply IH. intros; apply H; now right.
Qed.

Lemma Qsum_app l l' : (Qsum (l ++ l') == Qsum l + Qsum l')%Q.
Proof.
  induction l as [|x l IH]; simpl; [ring|]. rewrite IH. ring.
Qed.

Lemma Qsum_Permutation l l' : Permutation l l' -> (Qsum l == Qsum l')%Q.
Proof.
  induction 1 as [|x l l' _ IH|x y l|l l' l'' _ IH1 _ IH2]; simpl.
  - reflexivity.
  - now rewrite IH.
  - ring.
  - now rewrite IH1.
Qed.

Lemma score_nonneg tar history : (0 <= score tar history)%Q.
Proof.
  unfold score. apply Qsum_nonneg. intros x Hx.
  apply in_map_iff in Hx as [g [<- _]].
  apply Qsum_nonneg. intros y Hy.
  apply in_map_iff in Hy as [l [<- _]]. apply clueValue_nonneg.
Qed.

Lemma score_app tar history more :
  (score tar (history ++ more) == score tar history + score tar more)%Q.
Proof. unfold score. rewrite map_app. apply Qsum_app. Qed.

(** The score reads the clues only: candidates with the clues of the
    target for every guess have the score of the target. *)
Lemma scoreClues_consistent guesses old tar :
  consistent guesses old tar = true ->
  scoreClues guesses tar = scoreClues guesses old.
Proof.
  rewrite consistent_true. unfold scoreClues. generalize 0%Q.
  induction guesses as [|g guesses IH]; intros total H; simpl; [reflexivity|].
  rewrite IH by (intros; apply H; now right).
  f_equal. specialize (H g (or_introl eq_refl)). unfold cluesOf in H.
  revert total H. generalize (clue g old).
  induction (clue g tar) as [|l letters IHl]; intros [|l' letters'] total H;
    simpl in H; try discriminate; [reflexivity|].
  injection H as Hc Hrest. simpl. rewrite Hc. now apply IHl.
Qed.

(** ** The minimum *)

Lemma mathMin_constant (s : Q) scores :
  scores <> [] -> (forall x, In x scores -> x = s) -> mathMin scores = Finite s.
Proof.
  destruct scores as [|x scores]; [congruence|]. intros _ H.
  unfold mathMin. simpl. rewrite (H x) by now left.
  assert (Hs : forall y, In y scores -> y = s) by (intros; apply H; now right).
  clear H. induction scores as [|y scores IH]; simpl; [reflexivity|].
  rewrite (Hs y) by now left.
  replace (Qle_bool s s) with true
    by (symmetry; apply Qle_bool_iff, Qle_refl).
  apply IH. intros; apply Hs; now right.
Qed.

Lemma leastHelpful_constant (s : Q) (f : string -> Q) (valid : list string) :
  (forall t, In t valid -> f t = s) ->
  mathMin (map snd (map (fun t => (t, f t)) valid))
  = match valid with [] => Infinity | _ :: _ => Finite s end
  /\ map fst
       (filter
          (fun tar =>
             strictEq (snd tar) (mathMin (map snd (map (fun t => (t, f t)) valid))))
          (map (fun t => (t, f t)) valid))
     = valid.
Proof.
  intros H.
  assert (Hmin : mathMin (map snd (map (fun t => (t, f t)) valid))
                 = match valid with [] => Infinity | _ :: _ => Finite s end).
  { destruct valid as [|t valid]; [reflexivity|].
    apply mathMin_constant; [discriminate|].
    intros x Hx. rewrite map_map in Hx.
    apply in_map_iff in Hx as [u [<- Hu]]. simpl. now apply H. }
  split; [exact Hmin|]. rewrite Hmin.
  destruct valid as [|t0 valid0]; [reflexivity|].
  remember (t0 :: valid0) as valid eqn:E. clear E Hmin.
  induction valid as [|t valid IH]; simpl; [reflexivity|].
  rewrite (H t) by now left.
  replace (Qeq_bool s s) with true by (symmetry; apply Qeq_bool_iff; reflexivity).
  simpl. f_equal. apply IH. intros; apply H; now right.
Qed.

(** ** The selector *)

(** With a defined target the selector never throws, keeps exactly the
    consistent candidates (they all have the score of the target, which is
    therefore the minimum) and picks among them. *)
Lemma findNewWorstTarget_defined pool old guesses r :
  findNewWorstTarget pool (Some old) guesses r
  = let valid := filter (consistent guesses old) pool in
    Some (mkReselection (pick r valid) valid
            match valid with
            | [] => Infinity
            | _ :: _ => Finite (scoreClues guesses old)
            end
            (List.length valid)).
Proof.
  unfold findNewWorstTarget.
  rewrite (filterThrowing_ext _ (fun tar => Some (consistent guesses old tar)))
    by (intros; apply guessesAreValidFor_defined).
  rewrite filterThrowing_total. cbv zeta.
  destruct (leastHelpful_constant (scoreClues guesses old) (scoreClues guesses)
              (filter (consistent guesses old) pool)) as [Hmin Hleast].
  { intros t Ht. apply filter_In in Ht as [_ Ht].
    now apply scoreClues_consistent. }
  rewrite Hleast, Hmin. reflexivity.
Qed.

(** Without guesses the selector keeps the whole pool, whatever the
    target. *)
Lemma findNewWorstTarget_no_guess pool target r :
  findNewWorstTarget pool target [] r
  = Some (mkReselection (pick r pool) pool
            match pool with [] => Infinity | _ :: _ => Finite 0 end
            (List.length pool)).
Proof.
  unfold findNewWorstTarget.
  rewrite (filterThrowing_ext _ (fun _ => Some true)) by reflexivity.
  rewrite filterThrowing_total.
  replace (filter (fun _ => true) pool) with pool
    by (induction pool; simpl; congruence).
  destruct (leastHelpful_constant 0%Q (scoreClues []) pool) as [Hmin Hleast];
    [reflexivity|].
  rewrite Hleast, Hmin. reflexivity.
Qed.

(** What a run that returns has computed, whatever the target. *)
Lemma findNewWorstTarget_returns pool target guesses r sel :
  findNewWorstTarget pool target guesses r = Some sel ->
  newTarget sel = pick r (leastHelpful sel)
  /\ logged sel = List.length (leastHelpful sel)
  /\ incl (leastHelpful sel) pool
  /\ (forall t, In t (leastHelpful sel) ->
      guessesAreValidFor guesses t target = Some true).
Proof.
  unfold findNewWorstTarget.
  destruct (filterThrowing _ pool) as [valid|] eqn:E; [|discriminate].
  intros [= <-]. simpl. repeat split.
  - intros t Ht. apply in_map_iff in Ht as [[t' q] [<- Ht]].
    apply filter_In in Ht as [Ht _].
    apply in_map_iff in Ht as [u [[= <- _] Hu]].
    now apply (filterThrowing_In _ _ _ E) in Hu.
  - intros t Ht. apply in_map_iff in Ht as [[t' q] [<- Ht]].
    apply filter_In in Ht as [Ht _].
    apply in_map_iff in Ht as [u [[= <- _] Hu]].
    now apply (filterThrowing_In _ _ _ E) in Hu.
Qed.

(** ** Renders *)

Section Renders.

Variables dictionary common names : list string.
Variable props : GameProps.

(** A render returns when the target is defined. *)
Lemma renderRows_returns st tg indices : forall info,
  target st = Some tg ->
  exists rows info', renderRows st indices info = Some (rows, info').
Proof.
  induction indices as [|i indices IH]; intros info Ht; [simpl; eauto|].
  cbn [renderRows]. rewrite Ht.
  destruct (renderRow st tg info i) as [row info'].
  destruct (IH info' Ht) as (rows & info'' & ->). eauto.
Qed.

Lemma render_returns st tg :
  target st = Some tg -> render props st <> None.
Proof.
  intros Ht. unfold render.
  destruct (renderRows_returns st tg (seq 0 (maxGuesses props)) [] Ht)
    as (rows & info & ->).
  discriminate.
Qed.

(** A render throws when the target is undefined and there is a row to
    render. *)
Lemma render_throws st :
  target st = None -> 0 < maxGuesses props -> render props st = None.
Proof.
  intros Ht Hpos. unfold render.
  destruct (maxGuesses props) as [|n]; [lia|]. simpl. now rewrite Ht.
Qed.

(** Whether a render returns depends on the target only. *)
Lemma render_returns_iff st :
  render props st <> None <-> target st <> None \/ maxGuesses props = 0.
Proof.
  split.
  - intros H. destruct (target st) as [tg|] eqn:Et; [left; discriminate|].
    right. destruct (maxGuesses props) as [|n] eqn:E; [reflexivity|].
    exfalso. apply H, render_throws; [assumption | lia].
  - intros [H | H].
    + destruct (target st) as [tg|] eqn:Et; [|congruence].
      now apply render_returns with tg.
    + unfold render. rewrite H. discriminate.
Qed.

Lemma render_same_target st st' :
  target st' = target st -> render props st <> None -> render props st' <> None.
Proof. rewrite !render_returns_iff. intros ->. auto. Qed.

Lemma after_render {A} st (next : option A) :
  render props st <> None ->
  match render props st with
  | Some _ => next
  | None => None
  end = next.
Proof. now destruct (render props st). Qed.

Lemma rendered_returns st out :
  render props st <> None -> rendered props st out = Some (st, out).
Proof. unfold rendered. now destruct (render props st). Qed.

Lemma rendered_inv st out st' out' :
  rendered props st out = Some (st', out') ->
  st' = st /\ out' = out /\ render props st <> None.
Proof.
  unfold rendered. destruct (render props st); [|discriminate].
  intros [= <- <-]. repeat split. discriminate.
Qed.

(** What an event that returns has done to the state, and that the state
    it leaves was rendered. *)
Lemma dispatch_inv r1 r2 ev st st' out :
  dispatch dictionary common names props r1 r2 ev st = Some (st', out) ->
  match ev with
  | Key key =>
      match onKey dictionary props r1 key st with
      | None => None
      | Some (st1, true) => guessesEffect r2 st1
      | Some (st1, false) => Some (st1, [])
      end
  | SetLength length => Some (onChange dictionary common names r1 length st, [])
  | GiveUp =>
      match onClick st with
      | None => None
      | Some st1 => Some (st1, [])
      end
  end = Some (st', out)
  /\ render props st' <> None.
Proof.
  destruct ev as [key | len |]; simpl.
  - destruct (onKey dictionary props r1 key st) as [[st1 changed]|];
      [|discriminate].
    destruct (render props st1) eqn:E1; [|discriminate].
    destruct changed.
    + destruct (guessesEffect r2 st1) as [[st2 out2]|]; [|discriminate].
      intros H. apply rendered_inv in H as (-> & -> & Hr). auto.
    + intros [= <- <-]. split; [reflexivity|]. rewrite E1. discriminate.
  - intros H. apply rendered_inv in H as (-> & -> & Hr). auto.
  - destruct (onClick st) as [st1|]; [|discriminate].
    intros H. apply rendered_inv in H as (-> & -> & Hr). auto.
Qed.

(** A key that leaves [guesses] alone. *)
Lemma dispatch_key_unchanged r1 r2 key st st1 :
  onKey dictionary props r1 key st = Some (st1, false) ->
  render props st1 <> None ->
  dispatch dictionary common names props r1 r2 (Key key) st = Some (st1, []).
Proof.
  intros Hk Hr. simpl. rewrite Hk. now destruct (render props st1).
Qed.

(** A key that replaces [guesses]. *)
Lemma dispatch_key_changed r1 r2 key st st1 st2 out :
  onKey dictionary props r1 key st = Some (st1, true) ->
  render props st1 <> None ->
  guessesEffect r2 st1 = Some (st2, out) ->
  render props st2 <> None ->
  dispatch dictionary common names props r1 r2 (Key key) st = Some (st2, out).
Proof.
  intros Hk Hr1 He Hr2. simpl. rewrite Hk.
  destruct (render props st1); [|congruence].
  rewrite He. now apply rendered_returns.
Qed.

(** What mounting has done when it returns. *)
Lemma mount_inv r1 r2 st out :
  mount dictionary common names props r1 r2 = Some (st, out) ->
  guessesEffect r2 (firstRender dictionary common names r1) = Some (st, out)
  /\ render props st <> None.
Proof.
  unfold mount.
  destruct (render props (firstRender dictionary common names r1));
    [|discriminate].
  destruct (guessesEffect r2 _) as [[st1 out1]|]; [|discriminate].
  intros H. apply rendered_inv in H as (-> & -> & Hr). auto.
Qed.

End Renders.

(** ** The game between two events *)

Section Invariants.

Variables dictionary common names : list string.
Variable props : GameProps.

(** The invariant does not read the input row nor the hint. *)
Lemma Inv_input st v : Inv dictionary common names props st ->
  Inv dictionary common names props (setCurrentGuess v st).
Proof. intros [H1 H2 H3 H4 H5 H6]. now constructor. Qed.

Lemma Inv_hint st v : Inv dictionary common names props st ->
  Inv dictionary common names props (setHint v st).
Proof. intros [H1 H2 H3 H4 H5 H6]. now constructor. Qed.

(** The effect leaves the other state variables alone. *)
Lemma guessesEffect_frame r st st' out :
  guessesEffect r st = Some (st', out) ->
  gameState st' = gameState st /\ guesses st' = guesses st
  /\ currentGuess st' = currentGuess st /\ wordLength st' = wordLength st
  /\ hint st' = hint st.
Proof.
  unfold guessesEffect.
  destruct (findNewWorstTarget _ _ _ _); [|discriminate].
  intros [= <- _]. simpl. auto.
Qed.

(** The effect narrows the pool to candidates that answer every guess
    like the target did, and takes the new target among them. *)
Lemma guessesEffect_pool r st st' out :
  guessesEffect r st = Some (st', out) ->
  target st' = pick r (targets st')
  /\ out = [List.length (targets st')]
  /\ incl (targets st') (targets st)
  /\ (forall t, In t (targets st') ->
      guessesAreValidFor (guesses st) t (target st) = Some true).
Proof.
  unfold guessesEffect.
  destruct (findNewWorstTarget _ _ _ _) as [sel|] eqn:E; [|discriminate].
  intros [= <- <-]. simpl.
  destruct (findNewWorstTarget_returns _ _ _ _ _ E) as (Ht & Hl & Hi & Hv).
  rewrite Hl. auto.
Qed.

(** The effect establishes the part of the invariant that speaks of the
    target and the pool. *)
Lemma guessesEffect_Inv r st st' out :
  guessesEffect r st = Some (st', out) ->
  incl (targets st) (allTargets dictionary common names (wordLength st)) ->
  (0 < maxGuesses props -> gameState st = Playing ->
   List.length (guesses st) < maxGuesses props) ->
  (gameState st <> Playing -> guesses st <> []) ->
  Inv dictionary common names props st'.
Proof.
  intros H Hpool Hplay Hfin.
  destruct (guessesEffect_frame _ _ _ _ H) as (Hgs & Hg & _ & Hw & _).
  destruct (guessesEffect_pool _ _ _ _ H) as (Ht & _ & Hi & Hv).
  constructor.
  - intros tg Htg. rewrite Ht in Htg. now apply pick_In in Htg.
  - intros Hnone. rewrite Ht in Hnone. now apply pick_None in Hnone.
  - rewrite Hw. intros t Hin. apply Hpool, Hi, Hin.
  - now rewrite Hgs, Hg.
  - now rewrite Hgs, Hg.
  - rewrite Hg. intros g t Hgin Htin.
    destruct (pick_nonempty r (targets st')) as [nt Hnt].
    { intros E. rewrite E in Htin. destruct Htin. }
    exists nt. split; [congruence|].
    pose proof (pick_In _ _ _ Hnt) as Hntin.
    destruct (guessesAreValidFor_true _ _ _ (Hv t Htin))
      as [E | (old & Hold & Hc)]; [rewrite E in Hgin; destruct Hgin|].
    destruct (guessesAreValidFor_true _ _ _ (Hv nt Hntin))
      as [E | (old' & Hold' & Hc')]; [rewrite E in Hgin; destruct Hgin|].
    assert (old' = old) by congruence. subst old'.
    rewrite consistent_true in Hc, Hc'.
    now rewrite (Hc g Hgin), (Hc' g Hgin).
Qed.

(** Every state the component can be in between two events satisfies
    the invariant. *)
Lemma reachable_Inv st :
  reachable dictionary common names props st ->
  Inv dictionary common names props st.
Proof.
  induction 1 as [r1 r2 st out Hm | r1 r2 ev st st' out Hr IH Hen Hd].
  - apply mount_inv in Hm as [Hm _].
    apply (guessesEffect_Inv _ _ _ _ Hm); simpl.
    + apply incl_refl.
    + auto.
    + congruence.
  - destruct IH as [I1 I2 I3 I4 I5 I6].
    apply dispatch_inv in Hd as [Hd _].
    destruct ev as [key | len |]; simpl in Hd.
    + unfold onKey in Hd.
      destruct (gameState st) eqn:Egs; simpl in Hd.
      * (* Playing *)
        destruct (List.length (guesses st) =? maxGuesses props)%nat eqn:Emax;
          [injection Hd as <- _; constructor; auto|].
        apply Nat.eqb_neq in Emax.
        destruct (isLowercaseLetter key);
          [injection Hd as <- _; apply Inv_hint, Inv_input; constructor; auto|].
        destruct (key =? "Backspace")%string;
          [injection Hd as <- _; apply Inv_hint, Inv_input; constructor; auto|].
        destruct (key =? "Enter")%string;
          [|injection Hd as <- _; constructor; auto].
        destruct (String.length (currentGuess st) =? wordLength st)%nat; simpl in Hd;
          [|injection Hd as <- _; apply Inv_hint; constructor; auto].
        destruct (includes dictionary (currentGuess st)); simpl in Hd;
          [|injection Hd as <- _; apply Inv_hint; constructor; auto].
        destruct (match target st with
                  | Some t => (currentGuess st =? t)%string
                  | None => false
                  end).
        { apply (guessesEffect_Inv _ _ _ _ Hd); simpl; auto.
          - discriminate.
          - intros _ E. now destruct (guesses st). }
        destruct (List.length (guesses st) + 1 =? maxGuesses props)%nat eqn:Elast.
        { destruct (target st); [|discriminate].
          apply (guessesEffect_Inv _ _ _ _ Hd); simpl; auto.
          - discriminate.
          - intros _ E. now destruct (guesses st). }
        apply Nat.eqb_neq in Elast.
        apply (guessesEffect_Inv _ _ _ _ Hd); simpl; auto.
        intros Hpos _. rewrite length_app. simpl.
        specialize (I4 Hpos eq_refl). lia.
      * (* Won *)
        destruct (key =? "Enter")%string;
          [|injection Hd as <- _; constructor; rewrite ?Egs; auto].
        apply (guessesEffect_Inv _ _ _ _ Hd); simpl; auto.
      * (* Lost *)
        destruct (key =? "Enter")%string;
          [|injection Hd as <- _; constructor; rewrite ?Egs; auto].
        apply (guessesEffect_Inv _ _ _ _ Hd); simpl; auto.
    + injection Hd as <- _. simpl in Hen.
      apply andb_prop in Hen as [Hdis _]. apply negb_true_iff in Hdis.
      unfold sliderDisabled in Hdis. apply orb_false_elim in Hdis as [Hg _].
      apply Nat.ltb_ge in Hg.
      assert (Eg : guesses st = []) by (destruct (guesses st); simpl in *; [auto|lia]).
      constructor; simpl.
      * apply pick_In.
      * apply pick_None.
      * apply incl_refl.
      * auto.
      * auto.
      * rewrite Eg. intros g t [].
    + unfold onClick in Hd. destruct (target st) eqn:Et; [|discriminate].
      injection Hd as <- _. simpl in Hen. apply negb_true_iff in Hen.
      unfold giveUpDisabled in Hen. apply orb_false_elim in Hen as [_ Hg].
      apply Nat.eqb_neq in Hg.
      constructor; simpl; rewrite ?Et; auto.
      * discriminate.
      * intros _ E. rewrite E in Hg. now apply Hg.
Qed.

End Invariants.

(** ** Events *)

Section Events.

Variables dictionary common names : list string.
Variable props : GameProps.

Ltac onKey_case :=
  simpl; do 2 (split; [reflexivity|]);
  first [ left; repeat split; (assumption || reflexivity)
        | right; left; repeat split; (discriminate || reflexivity)
        | right; right; repeat split; (assumption || reflexivity) ].

(** What a key does to the state variables the selector reads: nothing,
    or a reset, or the commit of the input row. *)
Lemma onKey_shape r key st st1 flag :
  onKey dictionary props r key st = Some (st1, flag) ->
  targets st1 = targets st /\ wordLength st1 = wordLength st
  /\ ((flag = false /\ guesses st1 = guesses st /\ target st1 = target st
       /\ gameState st1 = gameState st)
      \/ (flag = true /\ gameState st <> Playing /\ st1 = reset r st)
      \/ (flag = true /\ gameState st = Playing
          /\ guesses st1 = guesses st ++ [currentGuess st]
          /\ target st1 = target st)).
Proof.
  unfold onKey. destruct (gameState st) eqn:Egs; simpl.
  - destruct (List.length (guesses st) =? maxGuesses props)%nat;
      [intros [= <- <-]; onKey_case|].
    destruct (isLowercaseLetter key); [intros [= <- <-]; onKey_case|].
    destruct (key =? "Backspace")%string; [intros [= <- <-]; onKey_case|].
    destruct (key =? "Enter")%string; [|intros [= <- <-]; onKey_case].
    destruct (String.length (currentGuess st) =? wordLength st)%nat; simpl;
      [|intros [= <- <-]; onKey_case].
    destruct (includes dictionary (currentGuess st)); simpl;
      [|intros [= <- <-]; onKey_case].
    destruct (match target st with
              | Some t => (currentGuess st =? t)%string
              | None => false
              end); [intros [= <- <-]; onKey_case|].
    destruct (List.length (guesses st) + 1 =? maxGuesses props)%nat;
      [destruct (target st) eqn:Et|]; intros [= <- <-]; onKey_case.
  - destruct (key =? "Enter")%string; intros [= <- <-]; onKey_case.
  - destruct (key =? "Enter")%string; intros [= <- <-]; onKey_case.
Qed.

(** A run of accepted events from a reachable state ends in a reachable
    state. *)
Lemma run_reachable events : forall st st',
  reachable dictionary common names props st ->
  run dictionary common names props events st = Some st' ->
  reachable dictionary common names props st'.
Proof.
  induction events as [|[ev [r1 r2]] events IH]; intros st st' Hr; simpl.
  - now intros [= <-].
  - destruct (enabled st ev) eqn:Hen; [|discriminate].
    destruct (dispatch dictionary common names props r1 r2 ev st)
      as [[st1 out]|] eqn:Hd; [|discriminate].
    apply IH. now apply (reachable_dispatch _ _ _ _ r1 r2 ev st st1 out).
Qed.

(** An event never changes the clues of a locked guess: the target it
    leaves gives, for every guess locked after the event, the clues the
    target it found gives. *)
Lemma dispatch_keeps_clues r1 r2 ev st st' out :
  enabled st ev = true ->
  dispatch dictionary common names props r1 r2 ev st = Some (st', out) ->
  forall g tg tg', In g (guesses st') ->
    target st = Some tg -> target st' = Some tg' ->
    cluesOf (clue g tg') = cluesOf (clue g tg).
Proof.
  intros Hen Hd g tg tg' Hg Ht Ht'.
  apply dispatch_inv in Hd as [Hd _].
  destruct ev as [key | len |]; simpl in Hd.
  - destruct (onKey dictionary props r1 key st) as [[st1 flag]|] eqn:Ek;
      [|discriminate].
    destruct (onKey_shape _ _ _ _ _ Ek)
      as (_ & _ & [(-> & Hg1 & Ht1 & _) | [(-> & _ & ->) | (-> & _ & Hg1 & Ht1)]]).
    + injection Hd as <- _. congruence.
    + destruct (guessesEffect_frame _ _ _ _ Hd) as (_ & Hg' & _).
      rewrite Hg' in Hg. destruct Hg.
    + destruct (guessesEffect_frame _ _ _ _ Hd) as (_ & Hg' & _).
      destruct (guessesEffect_pool _ _ _ _ Hd) as (Hp & _ & _ & Hv).
      rewrite Hp in Ht'. apply pick_In in Ht'.
      destruct (guessesAreValidFor_true _ _ _ (Hv tg' Ht'))
        as [E | (old & Hold & Hc)].
      * rewrite Hg', E in Hg. destruct Hg.
      * assert (old = tg) by congruence. subst old.
        rewrite consistent_true in Hc. apply Hc. now rewrite <- Hg'.
  - injection Hd as <- _. simpl in Hen, Hg.
    apply andb_prop in Hen as [Hdis _]. apply negb_true_iff in Hdis.
    unfold sliderDisabled in Hdis. apply orb_false_elim in Hdis as [Hl _].
    apply Nat.ltb_ge in Hl. destruct (guesses st); [destruct Hg | simpl in Hl; lia].
  - unfold onClick in Hd. destruct (target st) eqn:Et; [|discriminate].
    injection Hd as <- _. simpl in Ht'. congruence.
Qed.

End Events.

Lemma includes_In array word : includes array word = true <-> In word array.
Proof.
  unfold includes. rewrite existsb_exists. split.
  - intros [x [Hx E]]. apply String.eqb_eq in E. now subst.
  - intros H. exists word. split; [assumption | apply String.eqb_refl].
Qed.

Lemma demoStart_reachable :
  reachable demoDictionary demoCommon demoNames demoProps demoStart.
Proof. now apply (reachable_mount _ _ _ _ 0 0 demoStart [4]). Qed.

(** ** The pool invariant *)

Section KeyEvents.

Variables dictionary common names : list string.
Variable props : GameProps.

(** The state on screen was rendered. *)
Lemma reachable_renders st :
  reachable dictionary common names props st -> render props st <> None.
Proof.
  destruct 1 as [r1 r2 st out Hm | r1 r2 ev st st' out _ _ Hd].
  - now apply mount_inv in Hm.
  - now apply dispatch_inv in Hd.
Qed.

(** With a defined target the key handler does not throw. *)
Lemma onKey_returns r key st tg :
  target st = Some tg ->
  exists st1 flag, onKey dictionary props r key st = Some (st1, flag).
Proof.
  intros Ht. unfold onKey. rewrite Ht.
  repeat match goal with
         | |- context [if ?b then _ else _] => destruct b
         end; eauto.
Qed.

(** A key on a state whose target is in the pool: the event returns, the
    state it leaves has a target in its pool, the previous target is still
    in the pool, the pool has not grown, and the new target gives every
    locked guess the clues of the previous target. *)
Lemma key_event r1 r2 key st tg :
  target st = Some tg ->
  In tg (targets st) ->
  exists st' out tg',
    dispatch dictionary common names props r1 r2 (Key key) st = Some (st', out)
    /\ target st' = Some tg'
    /\ In tg' (targets st')
    /\ In tg (targets st')
    /\ incl (targets st') (targets st)
    /\ (forall g, In g (guesses st') ->
        cluesOf (clue g tg') = cluesOf (clue g tg)).
Proof.
  intros Ht Hin.
  destruct (onKey_returns r1 key st tg Ht) as (st1 & flag & Ek).
  destruct (onKey_shape _ _ _ _ _ _ _ Ek)
    as (Hp1 & _ & [(-> & Hg1 & Ht1 & _) | [(-> & _ & ->) | (-> & _ & Hg1 & Ht1)]]).
  - exists st1, [], tg. split.
    + apply dispatch_key_unchanged; [exact Ek|].
      apply render_returns with tg. congruence.
    + rewrite Hp1. repeat split; auto; try congruence; try apply incl_refl.
  - destruct (pick_nonempty r1 (targets st)) as [t1 Ht1];
      [intros E; rewrite E in Hin; destruct Hin|].
    destruct (pick_nonempty r2 (targets st)) as [t2 Ht2];
      [intros E; rewrite E in Hin; destruct Hin|].
    assert (He : guessesEffect r2 (reset r1 st)
                 = Some (setTarget (Some t2)
                           (setTargets (targets st)
                              (setTarget (Some t2) (reset r1 st))),
                         [List.length (targets st)])).
    { unfold guessesEffect. simpl.
      now rewrite findNewWorstTarget_no_guess, Ht2. }
    eexists _, _, t2. split.
    + eapply dispatch_key_changed; [exact Ek | | exact He |].
      * apply render_returns with t1. simpl. exact Ht1.
      * now apply render_returns with t2.
    + simpl. repeat split; auto.
      * now apply pick_In in Ht2.
      * apply incl_refl.
      * intros g [].
  - set (valid := filter (consistent (guesses st1) tg) (targets st)).
    assert (Hv : In tg valid)
      by (apply filter_In; split; [assumption | apply consistent_refl]).
    destruct (pick_nonempty r2 valid) as [t2 Ht2];
      [intros E; rewrite E in Hv; destruct Hv|].
    assert (He : guessesEffect r2 st1
                 = Some (setTarget (Some t2)
                           (setTargets valid (setTarget (Some t2) st1)),
                         [List.length valid])).
    { unfold guessesEffect.
      rewrite Ht1, Ht, findNewWorstTarget_defined, Hp1. cbv zeta.
      fold valid. now rewrite Ht2. }
    eexists _, _, t2. split.
    + eapply dispatch_key_changed; [exact Ek | | exact He |].
      * apply render_returns with tg. congruence.
      * now apply render_returns with t2.
    + simpl. repeat split; auto.
      * now apply pick_In in Ht2.
      * intros t Hv'. now apply filter_In in Hv'.
      * intros g Hg. apply pick_In, filter_In in Ht2 as [_ Hc].
        rewrite consistent_true in Hc. now apply Hc.
Qed.

End KeyEvents.

(** The example session mounted on the target "angle", after the guess
    "apple" left two candidates and the word "maple" was typed. *)
Lemma typed_maple_after_apple_reachable :
  reachable demoDictionary demoCommon demoNames demoProps
    (mkState Playing ["apple"] "maple" 5 "" ["angle"; "ankle"] (Some "angle")).
Proof.
  apply (run_reachable _ _ _ _
           (typeWord 0 "apple" ++ pressEnter 0 0 ++ typeWord 0 "maple")
           (mkState Playing [] "" 5 "Make your first guess!"
              ["apple"; "angle"; "ankle"; "maple"] (Some "angle"))).
  - now apply (reachable_mount _ _ _ _ 0 1 _ [4]).
  - vm_compute. reflexivity.
Qed.

(** C1.  Whenever the component waits for an event, the target is a member
    of the pool and every candidate left in the pool gives, for every
    locked guess, the clues the target gives.  A key, whatever it is,
    returns and leaves a target that is in the new pool and gives, for
    every guess locked after the key, the clues the previous target gave;
    the previous target is still in the pool, which has not grown.  And
    the selector, run on a pool that holds the current target, returns a
    new target and a new pool: the pool holds the current target and is
    exactly the candidates that answer every guess of the history like
    it, and the new target is one of them. *)
Theorem pool_consistency dictionary common names props st tg key r1 r2
    pool old history r :
  reachable dictionary common names props st ->
  target st = Some tg ->
  In old pool ->
  (In tg (targets st)
   /\ forall g t, In g (guesses st) -> In t (targets st) ->
       cluesOf (clue g t) = cluesOf (clue g tg))
  /\ (exists st' out tg',
        dispatch dictionary common names props r1 r2 (Key key) st
        = Some (st', out)
        /\ target st' = Some tg'
        /\ In tg' (targets st')
        /\ In tg (targets st')
        /\ incl (targets st') (targets st)
        /\ (forall g, In g (guesses st') ->
            cluesOf (clue g tg') = cluesOf (clue g tg))
        /\ (forall g t, In g (guesses st') -> In t (targets st') ->
            cluesOf (clue g t) = cluesOf (clue g tg')))
  /\ (exists sel nt,
        findNewWorstTarget pool (Some old) history r = Some sel
        /\ newTarget sel = Some nt
        /\ In nt (leastHelpful sel)
        /\ In old (leastHelpful sel)
        /\ (forall t, In t (leastHelpful sel) <->
             In t pool
             /\ forall g, In g history ->
                 cluesOf (clue g t) = cluesOf (clue g old))
        /\ (forall g, In g history ->
            cluesOf (clue g nt) = cluesOf (clue g old))).
Proof.
  intros Hr Ht Hold.
  pose proof (reachable_Inv _ _ _ _ _ Hr) as HInv.
  pose proof (inv_target_in_pool _ _ _ _ _ HInv tg Ht) as Hin.
  split; [|split].
  - split; [exact Hin|]. intros g t Hg Hp.
    destruct (inv_consistent _ _ _ _ _ HInv g t Hg Hp) as (tg0 & Ht0 & Hc).
    congruence.
  - destruct (key_event dictionary common names props r1 r2 key st tg Ht Hin)
      as (st' & out & tg' & Hd & Ht' & Hin' & Hkeep & Hincl & Hclues).
    exists st', out, tg'. repeat split; auto.
    intros g t Hg Hp.
    assert (Hr' : reachable dictionary common names props st')
      by (apply (reachable_dispatch _ _ _ _ r1 r2 (Key key) st st' out);
          [assumption | reflexivity | assumption]).
    destruct (inv_consistent _ _ _ _ _ (reachable_Inv _ _ _ _ _ Hr') g t Hg Hp)
      as (tg0 & Ht0 & Hc).
    congruence.
  - rewrite findNewWorstTarget_defined. cbv zeta.
    set (valid := filter (consistent history old) pool).
    assert (Hv : In old valid)
      by (apply filter_In; split; [assumption | apply consistent_refl]).
    destruct (pick_nonempty r valid) as [nt Hnt];
      [intros E; rewrite E in Hv; destruct Hv|].
    eexists _, nt. split; [reflexivity|]. simpl.
    pose proof (pick_In _ _ _ Hnt) as Hntin.
    split; [exact Hnt|]. split; [exact Hntin|]. split; [exact Hv|]. split.
    + intros t. unfold valid. rewrite filter_In, consistent_true. reflexivity.
    + apply filter_In in Hntin as [_ Hc]. rewrite consistent_true in Hc.
      exact Hc.
Qed.

Lemma pool_consistency_witness :
  (In "angle" ["angle"; "ankle"]
   /\ forall g t, In g ["apple"] -> In t ["angle"; "ankle"] ->
       cluesOf (clue g t) = cluesOf (clue g "angle"))
  /\ (exists st' out tg',
        demoDispatch 0 1 (Key "Enter")
          (mkState Playing ["apple"] "maple" 5 "" ["angle"; "ankle"]
             (Some "angle"))
        = Some (st', out)
        /\ target st' = Some tg'
        /\ In tg' (targets st')
        /\ In "angle" (targets st')
        /\ incl (targets st') ["angle"; "ankle"]
        /\ (forall g, In g (guesses st') ->
            cluesOf (clue g tg') = cluesOf (clue g "angle"))
        /\ (forall g t, In g (guesses st') -> In t (targets st') ->
            cluesOf (clue g t) = cluesOf (clue g tg')))
  /\ (exists sel nt,
        findNewWorstTarget ["apple"; "angle"; "ankle"; "maple"] (Some "angle")
          ["apple"] 1
        = Some sel
        /\ newTarget sel = Some nt
        /\ In nt (leastHelpful sel)
        /\ In "angle" (leastHelpful sel)
        /\ (forall t, In t (leastHelpful sel) <->
             In t ["apple"; "angle"; "ankle"; "maple"]
             /\ forall g, In g ["apple"] ->
                 cluesOf (clue g t) = cluesOf (clue g "angle"))
        /\ (forall g, In g ["apple"] ->
            cluesOf (clue g nt) = cluesOf (clue g "angle"))).
Proof.
  apply (pool_consistency demoDictionary demoCommon demoNames demoProps
           (mkState Playing ["apple"] "maple" 5 "" ["angle"; "ankle"]
              (Some "angle"))
           "angle" "Enter" 0 1
           ["apple"; "angle"; "ankle"; "maple"] "angle" ["apple"] 1).
  - apply typed_maple_after_apple_reachable.
  - reflexivity.
  - simpl. right. left. reflexivity.
Defined.

(** The commit of the witness above moves the target: the pool keeps both
    candidates and the draw picks the other one. *)
Example commit_moves_the_target :
  demoDispatch 0 1 (Key "Enter")
    (mkState Playing ["apple"] "maple" 5 "" ["angle"; "ankle"] (Some "angle"))
  = Some (mkState Playing ["apple"; "maple"] "" 5 "" ["angle"; "ankle"]
            (Some "ankle"), [2]).
Proof. vm_compute. reflexivity. Qed.

(** ** The selector's result *)

(** C5.  When the current target belongs to the pool, the selector
    returns: the new target is a member of the new pool, the new pool is
    included in the pool it was given and is no longer than it. *)
Theorem selector_postconditions pool old history r :
  In old pool ->
  exists nt newPool least count,
    findNewWorstTarget pool (Some old) history r
    = Some (mkReselection (Some nt) newPool least count)
    /\ In nt newPool
    /\ incl newPool pool
    /\ List.length newPool <= List.length pool.
Proof.
  intros Hin. rewrite findNewWorstTarget_defined. cbv zeta.
  set (valid := filter (consistent history old) pool).
  assert (Hold : In old valid)
    by (apply filter_In; split; [assumption | apply consistent_refl]).
  destruct (pick_nonempty r valid) as [nt Hnt];
    [intros E; rewrite E in Hold; destruct Hold|].
  exists nt, valid. do 2 eexists. rewrite Hnt. split; [reflexivity|].
  split; [now apply pick_In in Hnt|]. split.
  - intros t Ht. now apply filter_In in Ht.
  - apply filter_length_le.
Qed.

Lemma selector_postconditions_witness :
  exists nt newPool least count,
    findNewWorstTarget ["apple"; "angle"; "ankle"; "maple"] (Some "angle")
      ["apple"] 1
    = Some (mkReselection (Some nt) newPool least count)
    /\ In nt newPool
    /\ incl newPool ["apple"; "angle"; "ankle"; "maple"]
    /\ List.length newPool <= List.length ["apple"; "angle"; "ankle"; "maple"].
Proof.
  apply (selector_postconditions ["apple"; "angle"; "ankle"; "maple"]
           "angle" ["apple"] 1).
  simpl. right. left. reflexivity.
Defined.

(** C6, as the code has it.  When no candidate of the pool passes the
    consistency check, and in particular when the pool is empty, the
    selector applies no guard: the minimum of no score is [Infinity], no
    candidate is kept, the new pool is empty and the new target is
    [undefined]; the run is neither refused nor redirected to the full
    candidate list.  The effect stores that pool and that target; with a
    positive [maxGuesses] the render that follows throws on the undefined
    target, and with [maxGuesses] 0 it returns a grid without rows. *)
Theorem selector_empty_valid_subset props full st r :
  filterThrowing
    (fun tar => guessesAreValidFor (guesses st) tar (target st)) (targets st)
  = Some [] ->
  findNewWorstTarget (targets st) (target st) (guesses st) r
  = Some (mkReselection None [] Infinity 0)
  /\ ~ refusesOrFallsBack full
        (findNewWorstTarget (targets st) (target st) (guesses st) r)
  /\ exists st',
       guessesEffect r st = Some (st', [0])
       /\ targets st' = [] /\ target st' = None
       /\ (0 < maxGuesses props -> render props st' = None)
       /\ (maxGuesses props = 0 -> render props st' = Some ([], [])).
Proof.
  intros H.
  assert (E : findNewWorstTarget (targets st) (target st) (guesses st) r
              = Some (mkReselection None [] Infinity 0)).
  { unfold findNewWorstTarget. rewrite H. simpl. now rewrite pick_nil. }
  split; [exact E|]. split.
  - rewrite E.
    intros [Hnone | (sel & nt & [= <-] & _ & Hnt & _)]; discriminate.
  - unfold guessesEffect. rewrite E. simpl.
    eexists. split; [reflexivity|]. simpl. repeat split.
    + intros Hpos. now apply render_throws.
    + intros Hzero. unfold render. now rewrite Hzero.
Qed.

Lemma selector_empty_valid_subset_witness :
  findNewWorstTarget [] None [] 0 = Some (mkReselection None [] Infinity 0)
  /\ ~ refusesOrFallsBack ["abracadabra"] (findNewWorstTarget [] None [] 0)
  /\ exists st',
       guessesEffect 0
         (mkState Playing [] "" 5 "Make your first guess!" [] None)
       = Some (st', [0])
       /\ targets st' = [] /\ target st' = None
       /\ (0 < 0 -> render noRowsProps st' = None)
       /\ (0 = 0 -> render noRowsProps st' = Some ([], [])).
Proof.
  apply (selector_empty_valid_subset noRowsProps ["abracadabra"]
           (mkState Playing [] "" 5 "Make your first guess!" [] None) 0).
  reflexivity.
Defined.

(** C6 as stated fails.  The word lists hold one candidate, of eleven
    letters, so there is none for the initial length 5.  With a grid
    without rows the component mounts: the first render returns, the
    selector runs on the empty pool, computes the minimum [Infinity] and
    leaves an empty pool and an undefined target; the session is not
    refused and nothing falls back to the candidate list.  With six rows
    the same word lists make the first render throw. *)
Lemma selector_unguarded_on_empty_pool :
  candidates sparseDictionary sparseCommon [] = ["abracadabra"]
  /\ allTargets sparseDictionary sparseCommon [] 5 = []
  /\ mount sparseDictionary sparseCommon [] noRowsProps 0 0
     = Some (mkState Playing [] "" 5 "Make your first guess!" [] None, [0])
  /\ findNewWorstTarget [] None [] 0 = Some (mkReselection None [] Infinity 0)
  /\ ~ refusesOrFallsBack (candidates sparseDictionary sparseCommon [])
        (findNewWorstTarget [] None [] 0)
  /\ ~ refusesOrFallsBack (allTargets sparseDictionary sparseCommon [] 5)
        (findNewWorstTarget [] None [] 0)
  /\ mount sparseDictionary sparseCommon [] demoProps 0 0 = None.
Proof.
  repeat split; try (vm_compute; reflexivity);
    intros [Hnone | (sel & nt & Hsel & _ & Hnt & _)];
    try (vm_compute in Hnone; discriminate);
    vm_compute in Hsel; injection Hsel as <-; discriminate.
Qed.

(** ** The scorer *)

(** C8.  The score the code accumulates for a candidate is the sum, over
    the guesses of the history and the positions of each guess, of 1 for a
    correct letter, 0.5 for a letter that is elsewhere and 0 for an absent
    one. *)
Theorem scoreClues_definition candidate history :
  (scoreClues history candidate == score candidate history)%Q.
Proof.
  unfold scoreClues. rewrite (score_guesses_sum candidate history 0).
  apply Qplus_0_l.
Qed.

(** C9.  For a fixed candidate the score does not decrease when guesses are
    appended to the history, and histories that are permutations of each
    other give the same score. *)
Theorem scoreClues_monotone_order_independent t history history' more :
  Permutation history history' ->
  (scoreClues history t <= scoreClues (history ++ more) t)%Q
  /\ (scoreClues history t == scoreClues history' t)%Q.
Proof.
  intros Hperm. rewrite !scoreClues_sum. split.
  - rewrite score_app.
    rewrite <- (Qplus_0_r (score t history)) at 1.
    apply Qplus_le_compat; [apply Qle_refl | apply score_nonneg].
  - unfold score. apply Qsum_Permutation. now apply Permutation_map.
Qed.

Lemma scoreClues_monotone_order_independent_witness :
  (scoreClues ["apple"; "maple"] "angle"
   <= scoreClues (["apple"; "maple"] ++ ["ankle"]) "angle")%Q
  /\ (scoreClues ["apple"; "maple"] "angle"
      == scoreClues ["maple"; "apple"] "angle")%Q.
Proof.
  apply (scoreClues_monotone_order_independent "angle"
           ["apple"; "maple"] ["maple"; "apple"] ["ankle"]).
  apply perm_swap.
Defined.

Example score_apple_angle : score "angle" ["apple"; "maple"] = (11 # 2)%Q.
Proof. vm_compute. reflexivity. Qed.

(** ** Key events in a running game *)

Section Commits.

Variables dictionary common names : list string.
Variable props : GameProps.

(** The handler on Enter while playing with guesses left. *)
Lemma onKey_Enter_playing r st :
  gameState st = Playing ->
  List.length (guesses st) <> maxGuesses props ->
  onKey dictionary props r "Enter" st
  = if negb (String.length (currentGuess st) =? wordLength st)%nat then
      Some (setHint "Too short" st, false)
    else if negb (includes dictionary (currentGuess st)) then
      Some (setHint "Not a valid word" st, false)
    else
      let committed :=
        setCurrentGuess "" (setGuesses (guesses st ++ [currentGuess st]) st) in
      if match target st with
         | Some t => (currentGuess st =? t)%string
         | None => false
         end
      then Some (setGameState Won (setHint wonHint committed), true)
      else if (List.length (guesses st) + 1 =? maxGuesses props)%nat then
        match target st with
        | Some t => Some (setGameState Lost (setHint (lostHint t) committed), true)
        | None => None
        end
      else Some (setHint "" committed, true).
Proof.
  intros Hp Hmax. unfold onKey. rewrite Hp. simpl.
  apply Nat.eqb_neq in Hmax. now rewrite Hmax.
Qed.

(** C7.  While playing, Enter on an input row that is shorter than the
    word length, or that is full but not a word of the dictionary, only
    sets the hint ("Too short", "Not a valid word"): the locked guesses,
    the input row, the target, the pool, the phase and the word length
    are unchanged and the selector does not run. *)
Theorem rejected_enter_keeps_state st r1 r2 :
  reachable dictionary common names props st ->
  0 < maxGuesses props ->
  gameState st = Playing ->
  String.length (currentGuess st) < wordLength st
  \/ (String.length (currentGuess st) = wordLength st
      /\ ~ In (currentGuess st) dictionary) ->
  exists st',
    dispatch dictionary common names props r1 r2 (Key "Enter") st = Some (st', [])
    /\ guesses st' = guesses st
    /\ currentGuess st' = currentGuess st
    /\ target st' = target st
    /\ targets st' = targets st
    /\ gameState st' = gameState st
    /\ wordLength st' = wordLength st
    /\ hint st' = if (String.length (currentGuess st) <? wordLength st)%nat
                  then "Too short" else "Not a valid word".
Proof.
  intros Hr Hpos Hp Hrej.
  pose proof (inv_playing _ _ _ _ _ (reachable_Inv _ _ _ _ _ Hr) Hpos Hp) as Hlt.
  assert (Hshown : forall h, render props (setHint h st) <> None)
    by (intros h; apply (render_same_target props st);
        [reflexivity | now apply (reachable_renders dictionary common names)]).
  simpl. rewrite onKey_Enter_playing by (auto; lia).
  destruct Hrej as [Hshort | [Hfull Hnot]].
  - replace (String.length (currentGuess st) =? wordLength st)%nat with false
      by (symmetry; apply Nat.eqb_neq; lia).
    replace (String.length (currentGuess st) <? wordLength st)%nat with true
      by (symmetry; apply Nat.ltb_lt; lia).
    simpl. rewrite after_render by apply Hshown.
    eexists. split; [reflexivity|]. simpl. auto 8.
  - rewrite Hfull, Nat.eqb_refl, Nat.ltb_irrefl. simpl.
    replace (includes dictionary (currentGuess st)) with false
      by (symmetry; apply not_true_is_false; now rewrite includes_In).
    simpl. rewrite after_render by apply Hshown.
    eexists. split; [reflexivity|]. simpl. auto 8.
Qed.

(** C3, as the code has it.  The last wrong guess, in a state whose target
    is in the pool, ends the game with a hint that prints the target held
    when the guess was committed; the selector then runs once more on the
    history with that guess, so the target left in the state is any pool
    word, chosen by the draw, that gives for every locked guess the clues
    of the printed word. *)
Theorem last_wrong_guess st tg r1 r2 :
  gameState st = Playing ->
  List.length (guesses st) + 1 = maxGuesses props ->
  String.length (currentGuess st) = wordLength st ->
  In (currentGuess st) dictionary ->
  target st = Some tg ->
  In tg (targets st) ->
  currentGuess st <> tg ->
  exists st',
    dispatch dictionary common names props r1 r2 (Key "Enter") st
    = Some (st', [List.length (targets st')])
    /\ gameState st' = Lost
    /\ guesses st' = guesses st ++ [currentGuess st]
    /\ currentGuess st' = ""
    /\ hint st' = lostHint tg
    /\ targets st'
       = filter (consistent (guesses st ++ [currentGuess st]) tg) (targets st)
    /\ target st' = pick r2 (targets st')
    /\ (forall nt g, target st' = Some nt -> In g (guesses st') ->
        cluesOf (clue g nt) = cluesOf (clue g tg)).
Proof.
  intros Hp Hlast Hlen Hdict Ht Hin Hwrong.
  set (committed :=
         setCurrentGuess "" (setGuesses (guesses st ++ [currentGuess st]) st)).
  set (st1 := setGameState Lost (setHint (lostHint tg) committed)).
  set (valid := filter (consistent (guesses st ++ [currentGuess st]) tg)
                  (targets st)).
  assert (Ek : onKey dictionary props r1 "Enter" st = Some (st1, true)).
  { rewrite onKey_Enter_playing by (auto; lia).
    rewrite Hlen, Nat.eqb_refl. simpl.
    apply includes_In in Hdict. rewrite Hdict. simpl.
    rewrite Ht. apply String.eqb_neq in Hwrong. rewrite Hwrong.
    now rewrite Hlast, Nat.eqb_refl. }
  assert (He : guessesEffect r2 st1
               = Some (setTarget (pick r2 valid)
                         (setTargets valid (setTarget (pick r2 valid) st1)),
                       [List.length valid])).
  { unfold guessesEffect. simpl. now rewrite Ht, findNewWorstTarget_defined. }
  assert (Hv : In tg valid)
    by (apply filter_In; split; [assumption | apply consistent_refl]).
  destruct (pick_nonempty r2 valid) as [nt Hnt];
    [intros E; rewrite E in Hv; destruct Hv|].
  eexists. split.
  - eapply dispatch_key_changed; [exact Ek | | exact He |].
    + now apply render_returns with tg.
    + apply render_returns with nt. simpl. exact Hnt.
  - simpl. repeat split.
    intros nt' g Hnt' Hg. apply pick_In, filter_In in Hnt' as [_ Hc].
    rewrite consistent_true in Hc. now apply Hc.
Qed.

(** C4, as the code has it.  Committing the target wins the game; the
    selector runs once more, as the effect of that commit, narrows the
    pool to the guessed word and picks it again; after that no event runs
    the selector until Enter starts the next game. *)
Theorem winning_commit st w r1 r2 :
  reachable dictionary common names props st ->
  0 < maxGuesses props ->
  gameState st = Playing ->
  target st = Some w ->
  currentGuess st = w ->
  exists st',
    dispatch dictionary common names props r1 r2 (Key "Enter") st
    = Some (st', [List.length (targets st')])
    /\ gameState st' = Won
    /\ guesses st' = guesses st ++ [w]
    /\ hint st' = wonHint
    /\ target st' = Some w
    /\ In w (targets st')
    /\ (forall t, In t (targets st') -> t = w)
    /\ (forall key q1 q2, key <> "Enter" ->
        dispatch dictionary common names props q1 q2 (Key key) st' = Some (st', []))
    /\ (forall n, enabled st' (SetLength n) = false)
    /\ enabled st' GiveUp = false.
Proof.
  intros Hr Hpos Hp Ht Hw.
  pose proof (reachable_Inv _ _ _ _ _ Hr) as [I1 _ I3 I4 _ _].
  specialize (I4 Hpos Hp). specialize (I1 w Ht).
  assert (Hall : forall t, In t (targets st) ->
                 String.length t = wordLength st /\ In t dictionary).
  { intros t Hin. apply I3 in Hin. unfold allTargets, candidates in Hin.
    apply filter_In in Hin as [Hin Hl]. apply Nat.eqb_eq in Hl.
    apply filter_In in Hin as [_ Hin]. apply andb_prop in Hin as [Hin _].
    now apply includes_In in Hin. }
  destruct (Hall w I1) as [Hlen Hdict].
  set (st1 := setGameState Won
                (setHint wonHint
                   (setCurrentGuess "" (setGuesses (guesses st ++ [w]) st)))).
  set (valid := filter (consistent (guesses st ++ [w]) w) (targets st)).
  assert (Ek : onKey dictionary props r1 "Enter" st = Some (st1, true)).
  { rewrite onKey_Enter_playing by (auto; lia).
    rewrite Hw, Hlen, Nat.eqb_refl. simpl.
    apply includes_In in Hdict. rewrite Hdict. simpl.
    now rewrite Ht, String.eqb_refl. }
  assert (Hin : In w valid)
    by (apply filter_In; split; [assumption | apply consistent_refl]).
  assert (Honly : forall t, In t valid -> t = w).
  { intros t Hv. apply filter_In in Hv as [Hpool Hc].
    rewrite consistent_true in Hc.
    apply clue_all_correct.
    - destruct (Hall t Hpool) as [Hl _]. congruence.
    - apply Hc, in_or_app. right. now left. }
  destruct (pick_nonempty r2 valid) as [nt Hnt];
    [intros E; rewrite E in Hin; destruct Hin|].
  pose proof (Honly nt (pick_In _ _ _ Hnt)) as ->.
  assert (He : guessesEffect r2 st1
               = Some (setTarget (Some w)
                         (setTargets valid (setTarget (Some w) st1)),
                       [List.length valid])).
  { unfold guessesEffect. simpl. rewrite Ht, findNewWorstTarget_defined.
    cbv zeta. fold valid. now rewrite Hnt. }
  eexists. split.
  - eapply dispatch_key_changed; [exact Ek | | exact He |].
    + now apply render_returns with w.
    + now apply render_returns with w.
  - repeat split; try (simpl; auto; fail).
    + intros key q1 q2 Hkey. apply dispatch_key_unchanged.
      * unfold onKey. simpl. apply String.eqb_neq in Hkey. now rewrite Hkey.
      * now apply render_returns with w.
    + intros n. simpl. unfold sliderDisabled. simpl.
      rewrite length_app. simpl. rewrite Nat.add_1_r. reflexivity.
Qed.

(** Enter after a game is over: the input of the next game is cleared and
    the target is drawn again, from the pool the finished game left. *)
Lemma reset_keeps_pool st r1 r2 :
  gameState st <> Playing ->
  targets st <> [] ->
  dispatch dictionary common names props r1 r2 (Key "Enter") st
  = Some (mkState Playing [] "" (wordLength st) "" (targets st)
            (pick r2 (targets st)),
          [List.length (targets st)]).
Proof.
  intros Hp Hpool.
  destruct (pick_nonempty r1 (targets st) Hpool) as [t1 Ht1].
  destruct (pick_nonempty r2 (targets st) Hpool) as [t2 Ht2].
  apply dispatch_key_changed with (st1 := reset r1 st).
  - unfold onKey.
    replace (negb (GameState_eqb (gameState st) Playing)) with true
      by (destruct (gameState st); simpl; congruence).
    reflexivity.
  - apply render_returns with t1. simpl. exact Ht1.
  - unfold guessesEffect. simpl. now rewrite findNewWorstTarget_no_guess.
  - apply render_returns with t2. simpl. exact Ht2.
Qed.

(** C10.  An event that changes the word length is a move of the slider,
    and the slider is enabled only while there is no locked guess and the
    input row is empty; the event leaves both empty. *)
Theorem length_change_guard st ev r1 r2 st' out :
  enabled st ev = true ->
  dispatch dictionary common names props r1 r2 ev st = Some (st', out) ->
  wordLength st' <> wordLength st ->
  ev = SetLength (wordLength st')
  /\ sliderDisabled st = false
  /\ guesses st = [] /\ currentGuess st = ""
  /\ guesses st' = [] /\ currentGuess st' = "".
Proof.
  intros Hen Hd Hw. apply dispatch_inv in Hd as [Hd _].
  destruct ev as [key | len |]; simpl in Hd.
  - exfalso. apply Hw.
    destruct (onKey dictionary props r1 key st) as [[st1 flag]|] eqn:Ek;
      [|discriminate].
    destruct (onKey_shape _ _ _ _ _ _ _ Ek) as (_ & Hw1 & _).
    destruct flag.
    + destruct (guessesEffect_frame _ _ _ _ Hd) as (_ & _ & _ & Hw' & _).
      congruence.
    + injection Hd as <- _. exact Hw1.
  - injection Hd as <- _. simpl in *.
    apply andb_prop in Hen as [Hdis _]. apply negb_true_iff in Hdis.
    pose proof Hdis as Hdis'.
    unfold sliderDisabled in Hdis. apply orb_false_elim in Hdis as [Hg Hc].
    apply Nat.ltb_ge in Hg. apply negb_false_iff, String.eqb_eq in Hc.
    assert (guesses st = []) by (destruct (guesses st); simpl in *; [auto|lia]).
    auto 8.
  - exfalso. apply Hw. unfold onClick in Hd.
    destruct (target st); [|discriminate]. now injection Hd as <- _.
Qed.

End Commits.

(** ** The example session *)

(** The example session after the word "aaaaa", which is not in the
    dictionary, is typed. *)
Lemma typed_aaaaa_reachable :
  reachable demoDictionary demoCommon demoNames demoProps
    (mkState Playing [] "aaaaa" 5 ""
       ["apple"; "angle"; "ankle"; "maple"] (Some "apple")).
Proof.
  apply (run_reachable _ _ _ _ (typeWord 0 "aaaaa") demoStart).
  - apply demoStart_reachable.
  - vm_compute. reflexivity.
Qed.

(** The example session after the target is typed. *)
Lemma typed_apple_reachable :
  reachable demoDictionary demoCommon demoNames demoProps
    (mkState Playing [] "apple" 5 ""
       ["apple"; "angle"; "ankle"; "maple"] (Some "apple")).
Proof.
  apply (run_reachable _ _ _ _ (typeWord 0 "apple") demoStart).
  - apply demoStart_reachable.
  - vm_compute. reflexivity.
Qed.

Lemma rejected_enter_keeps_state_witness :
  exists st',
    demoDispatch 0 0 (Key "Enter")
      (mkState Playing [] "aaaaa" 5 ""
         ["apple"; "angle"; "ankle"; "maple"] (Some "apple"))
    = Some (st', [])
    /\ guesses st' = []
    /\ currentGuess st' = "aaaaa"
    /\ target st' = Some "apple"
    /\ targets st' = ["apple"; "angle"; "ankle"; "maple"]
    /\ gameState st' = Playing
    /\ wordLength st' = 5
    /\ hint st' = "Not a valid word".
Proof.
  apply (rejected_enter_keeps_state demoDictionary demoCommon demoNames demoProps
           (mkState Playing [] "aaaaa" 5 ""
              ["apple"; "angle"; "ankle"; "maple"] (Some "apple")) 0 0).
  - apply typed_aaaaa_reachable.
  - simpl. lia.
  - reflexivity.
  - right. split; [reflexivity|]. simpl.
    intros H. repeat (destruct H as [H|H]; [discriminate H|]). exact H.
Defined.

Example too_short_on_empty_row :
  demoDispatch 0 0 (Key "Enter") demoStart
  = Some (setHint "Too short" demoStart, []).
Proof. reflexivity. Qed.

(** C3 as stated fails.  In the example session the sixth guess is wrong;
    the hint prints the target of the commit, ANGLE, and the selector that
    runs after the commit leaves the target ANKLE. *)
Lemma lost_hint_is_not_the_final_target :
  demoRun
    (typeWord 0 "zzzzz" ++ pressEnter 0 1 ++ typeWord 0 "zzzzz" ++ pressEnter 0 1
     ++ typeWord 0 "zzzzz" ++ pressEnter 0 1 ++ typeWord 0 "zzzzz" ++ pressEnter 0 1
     ++ typeWord 0 "zzzzz" ++ pressEnter 0 1 ++ typeWord 0 "apple")
    demoStart
  = Some (mkState Playing ["zzzzz"; "zzzzz"; "zzzzz"; "zzzzz"; "zzzzz"] "apple" 5 ""
            ["apple"; "angle"; "ankle"; "maple"] (Some "angle"))
  /\ exists st',
       demoDispatch 0 1 (Key "Enter")
         (mkState Playing ["zzzzz"; "zzzzz"; "zzzzz"; "zzzzz"; "zzzzz"] "apple" 5 ""
            ["apple"; "angle"; "ankle"; "maple"] (Some "angle"))
       = Some (st', [2])
       /\ gameState st' = Lost
       /\ hint st' = "You lost! The answer was ANGLE. (Enter to play again)"
       /\ target st' = Some "ankle"
       /\ hint st' <> lostHint "ankle".
Proof.
  split; [vm_compute; reflexivity|].
  eexists. split; [vm_compute; reflexivity|]. simpl.
  repeat split. vm_compute. discriminate.
Qed.

Lemma last_wrong_guess_witness :
  exists st',
    demoDispatch 0 1 (Key "Enter")
      (mkState Playing ["zzzzz"; "zzzzz"; "zzzzz"; "zzzzz"; "zzzzz"] "apple" 5 ""
         ["apple"; "angle"; "ankle"; "maple"] (Some "angle"))
    = Some (st', [List.length (targets st')])
    /\ gameState st' = Lost
    /\ guesses st' = ["zzzzz"; "zzzzz"; "zzzzz"; "zzzzz"; "zzzzz"] ++ ["apple"]
    /\ currentGuess st' = ""
    /\ hint st' = lostHint "angle"
    /\ targets st'
       = filter
           (consistent
              (["zzzzz"; "zzzzz"; "zzzzz"; "zzzzz"; "zzzzz"] ++ ["apple"]) "angle")
           ["apple"; "angle"; "ankle"; "maple"]
    /\ target st' = pick 1 (targets st')
    /\ (forall nt g, target st' = Some nt -> In g (guesses st') ->
        cluesOf (clue g nt) = cluesOf (clue g "angle")).
Proof.
  apply (last_wrong_guess demoDictionary demoCommon demoNames demoProps
           (mkState Playing ["zzzzz"; "zzzzz"; "zzzzz"; "zzzzz"; "zzzzz"] "apple" 5 ""
              ["apple"; "angle"; "ankle"; "maple"] (Some "angle"))
           "angle" 0 1).
  - reflexivity.
  - reflexivity.
  - reflexivity.
  - simpl. left. reflexivity.
  - reflexivity.
  - simpl. right. left. reflexivity.
  - simpl. discriminate.
Defined.

(** C4 as stated fails.  In the example session the pool holds four words
    when the target is typed; Enter wins the game, and the selector runs
    after that commit: it writes the size of the new pool to the console
    and replaces the pool. *)
Lemma selector_runs_after_the_winning_commit :
  onKey demoDictionary demoProps 0 "Enter"
    (mkState Playing [] "apple" 5 ""
       ["apple"; "angle"; "ankle"; "maple"] (Some "apple"))
  = Some (mkState Won ["apple"] "" 5 wonHint
            ["apple"; "angle"; "ankle"; "maple"] (Some "apple"), true)
  /\ demoDispatch 0 0 (Key "Enter")
       (mkState Playing [] "apple" 5 ""
          ["apple"; "angle"; "ankle"; "maple"] (Some "apple"))
     = Some (mkState Won ["apple"] "" 5 wonHint ["apple"] (Some "apple"), [1])
  /\ findNewWorstTarget ["apple"; "angle"; "ankle"; "maple"] (Some "apple")
       ["apple"] 0
     = Some (mkReselection (Some "apple") ["apple"] (Finite 5) 1).
Proof. repeat split; vm_compute; reflexivity. Qed.

Lemma winning_commit_witness :
  exists st',
    demoDispatch 0 0 (Key "Enter")
      (mkState Playing [] "apple" 5 ""
         ["apple"; "angle"; "ankle"; "maple"] (Some "apple"))
    = Some (st', [List.length (targets st')])
    /\ gameState st' = Won
    /\ guesses st' = [] ++ ["apple"]
    /\ hint st' = wonHint
    /\ target st' = Some "apple"
    /\ In "apple" (targets st')
    /\ (forall t, In t (targets st') -> t = "apple")
    /\ (forall key q1 q2, key <> "Enter" ->
        demoDispatch q1 q2 (Key key) st' = Some (st', []))
    /\ (forall n, enabled st' (SetLength n) = false)
    /\ enabled st' GiveUp = false.
Proof.
  apply (winning_commit demoDictionary demoCommon demoNames demoProps
           (mkState Playing [] "apple" 5 ""
              ["apple"; "angle"; "ankle"; "maple"] (Some "apple"))
           "apple" 0 0).
  - apply typed_apple_reachable.
  - simpl. lia.
  - reflexivity.
  - reflexivity.
  - reflexivity.
Defined.

(** C2 fails on the code.  In the example session the game is won on the
    first guess, which narrows the pool to the guessed word.  Enter then
    clears the guesses, the input row and the hint and returns to
    [Playing], but the pool stays the narrowed one and the target of the
    next game is drawn from it, whatever the draws: it is the word of the
    game just won, although the candidate list holds four words. *)
Theorem reset_keeps_the_narrowed_pool r1 r2 :
  demoRun (typeWord 0 "apple" ++ pressEnter 0 0) demoStart
  = Some (mkState Won ["apple"] "" 5 wonHint ["apple"] (Some "apple"))
  /\ demoDispatch r1 r2 (Key "Enter")
       (mkState Won ["apple"] "" 5 wonHint ["apple"] (Some "apple"))
     = Some (mkState Playing [] "" 5 "" ["apple"] (Some "apple"), [1])
  /\ allTargets demoDictionary demoCommon demoNames 5
     = ["apple"; "angle"; "ankle"; "maple"].
Proof.
  split; [vm_compute; reflexivity|]. split; [|vm_compute; reflexivity].
  unfold demoDispatch. rewrite reset_keeps_pool by discriminate. simpl.
  unfold pick. simpl. reflexivity.
Qed.

Lemma length_change_guard_witness :
  SetLength 4 = SetLength 4
  /\ sliderDisabled demoStart = false
  /\ guesses demoStart = [] /\ currentGuess demoStart = ""
  /\ guesses (mkState Playing [] "" 4 "4 letters" ["word"] (Some "word")) = []
  /\ currentGuess (mkState Playing [] "" 4 "4 letters" ["word"] (Some "word"))
     = "".
Proof.
  apply (length_change_guard mixedDictionary mixedCommon [] demoProps
           demoStart (SetLength 4) 0 0
           (mkState Playing [] "" 4 "4 letters" ["word"] (Some "word")) []).
  - reflexivity.
  - vm_compute. reflexivity.
  - simpl. lia.
Defined.

(** ** Further facts about events *)

Section Progress.

Variables dictionary common names : list string.
Variable props : GameProps.

(** A key never widens the pool: over a game the pool only shrinks. *)
Lemma key_shrinks_pool r1 r2 key st st' out :
  dispatch dictionary common names props r1 r2 (Key key) st = Some (st', out) ->
  incl (targets st') (targets st)
  /\ List.length (targets st') <= List.length (targets st).
Proof.
  intros Hd. apply dispatch_inv in Hd as [Hd _]. revert Hd.
  destruct (onKey dictionary props r1 key st) as [[st1 flag]|] eqn:Ek;
    [|discriminate].
  destruct (onKey_shape _ _ _ _ _ _ _ Ek) as (Hpool & _).
  destruct flag.
  - unfold guessesEffect, findNewWorstTarget.
    destruct (filterThrowing _ (targets st1)) as [valid|] eqn:E; [|discriminate].
    intros [= <- _]. simpl. rewrite <- Hpool.
    rewrite length_map.
    assert (Hsub : forall t,
               In t (map fst
                       (filter
                          (fun tar =>
                             strictEq (snd tar)
                               (mathMin
                                  (map snd
                                     (map (fun t => (t, scoreClues (guesses st1) t))
                                        valid))))
                          (map (fun t => (t, scoreClues (guesses st1) t)) valid))) ->
               In t valid).
    { intros t Ht. apply in_map_iff in Ht as [[t' q] [<- Ht]].
      apply filter_In in Ht as [Ht _].
      now apply in_map_iff in Ht as [u [[= <- _] Hu]]. }
    split.
    + intros t Ht. apply Hsub in Ht.
      now apply (filterThrowing_In _ _ _ E) in Ht.
    + etransitivity; [apply filter_length_le|].
      rewrite length_map. now apply filterThrowing_length in E.
  - intros [= <- _]. rewrite Hpool. split; [apply incl_refl | lia].
Qed.

End Progress.

(** Scenario D of the specification: giving up is not possible before the
    first guess and ends the game afterwards. *)
Example give_up_needs_a_guess :
  enabled demoStart GiveUp = false
  /\ demoRun (typeWord 0 "maple" ++ pressEnter 0 0 ++ [(GiveUp, (0, 0))]) demoStart
     = Some (mkState Lost ["maple"] "" 5
               "The answer was APPLE. (Enter to play again)" ["apple"] (Some "apple")).
Proof. split; vm_compute; reflexivity. Qed.

(** * Further properties of the selector *)

Lemma filter_all {A} (f : A -> bool) (l : list A) :
  (forall x, In x l -> f x = true) -> filter f l = l.
Proof.
  induction l as [|x l IH]; intros H; simpl; [reflexivity|].
  rewrite (H x) by now left. f_equal. apply IH. intros; apply H; now right.
Qed.

Lemma consistent_sym history a b :
  consistent history a b = consistent history b a.
Proof.
  apply eq_true_iff_eq. rewrite !consistent_true.
  split; intros H g Hg; symmetry; now apply H.
Qed.

Lemma consistent_trans history a b c :
  consistent history a b = true -> consistent history b c = true ->
  consistent history a c = true.
Proof.
  rewrite !consistent_true. intros Hab Hbc g Hg.
  now rewrite (Hbc g Hg), (Hab g Hg).
Qed.

(** The least of a non-empty list of scores is below every one of them. *)
Lemma least_from scores : forall q0 : Q,
  exists q,
    fold_left
      (fun least s =>
         match least with
         | Infinity => Finite s
         | Finite q => if Qle_bool q s then Finite q else Finite s
         end)
      scores (Finite q0)
    = Finite q
    /\ (q <= q0)%Q /\ (forall s, In s scores -> q <= s)%Q.
Proof.
  induction scores as [|s scores IH]; intros q0; simpl.
  - exists q0. split; [reflexivity|]. split; [apply Qle_refl|]. intros s [].
  - destruct (Qle_bool q0 s) eqn:E.
    + destruct (IH q0) as (q & Hq & Hle & Hall). exists q.
      split; [exact Hq|]. split; [exact Hle|].
      intros x [<-|Hx]; [|now apply Hall].
      apply Qle_bool_iff in E. now apply Qle_trans with q0.
    + destruct (IH s) as (q & Hq & Hle & Hall). exists q.
      split; [exact Hq|].
      assert (Hs : (s <= q0)%Q).
      { destruct (Qlt_le_dec s q0) as [Hlt|Hge]; [now apply Qlt_le_weak|].
        apply Qle_bool_iff in Hge. congruence. }
      split; [now apply Qle_trans with s|].
      intros x [<-|Hx]; [exact Hle | now apply Hall].
Qed.

Lemma mathMin_lower_bound scores q :
  mathMin scores = Finite q -> forall s, In s scores -> (q <= s)%Q.
Proof.
  destruct scores as [|s0 scores]; [discriminate|].
  unfold mathMin. simpl. destruct (least_from scores s0) as (q' & Hq & Hle & Hall).
  rewrite Hq. intros [= <-] s [<-|Hs]; [exact Hle | now apply Hall].
Qed.

(** X1.  With a defined target the selector keeps, in the order of the
    pool, exactly the candidates that give the clues of the target for
    every guess; they all have the score of the target, so filtering on
    the least score removes none of them. *)
Theorem selector_keeps_all_consistent_candidates pool old history r :
  exists sel,
    findNewWorstTarget pool (Some old) history r = Some sel
    /\ leastHelpful sel = filter (consistent history old) pool
    /\ (forall t, In t (leastHelpful sel) <->
         In t pool
         /\ forall g, In g history -> cluesOf (clue g t) = cluesOf (clue g old))
    /\ (forall t, In t (leastHelpful sel) ->
         scoreClues history t = scoreClues history old)
    /\ (leastHelpful sel <> [] ->
         minScore sel = Finite (scoreClues history old)).
Proof.
  rewrite findNewWorstTarget_defined. cbv zeta.
  eexists. split; [reflexivity|]. simpl. split; [reflexivity|]. split; [|split].
  - intros t. rewrite filter_In, consistent_true. reflexivity.
  - intros t Ht. apply filter_In in Ht as [_ Ht].
    now apply scoreClues_consistent.
  - destruct (filter (consistent history old) pool); congruence.
Qed.

(** X2.  Whatever the target, when the selector returns a new target, that
    word is a candidate of the pool that passed the check, and no
    candidate of the pool that passes the check has a smaller score. *)
Theorem selector_target_has_least_score pool target history r sel nt t :
  findNewWorstTarget pool target history r = Some sel ->
  newTarget sel = Some nt ->
  In t pool ->
  guessesAreValidFor history t target = Some true ->
  In nt pool
  /\ guessesAreValidFor history nt target = Some true
  /\ (scoreClues history nt <= scoreClues history t)%Q.
Proof.
  unfold findNewWorstTarget.
  destruct (filterThrowing _ pool) as [valid|] eqn:E; [|discriminate].
  intros [= <-]. simpl. intros Hnt Hin Hvalid.
  apply pick_In, in_map_iff in Hnt as [[nt' q] [Heq Hnt]]. simpl in Heq. subst nt'.
  apply filter_In in Hnt as [Hmapped Hmin]. simpl in Hmin.
  apply in_map_iff in Hmapped as [u [[= -> <-] Hu]].
  pose proof (proj1 (filterThrowing_In _ _ _ E nt) Hu) as [Hp Hv].
  split; [exact Hp|]. split; [exact Hv|].
  destruct (mathMin _) as [m|] eqn:Em; [|discriminate]. simpl in Hmin.
  apply Qeq_bool_iff in Hmin. rewrite Hmin.
  apply (mathMin_lower_bound _ _ Em).
  rewrite map_map. simpl. apply in_map_iff. exists t. split; [reflexivity|].
  apply (filterThrowing_In _ _ _ E). now split.
Qed.

Lemma selector_target_has_least_score_witness :
  In "ankle" ["apple"; "angle"; "ankle"; "maple"]
  /\ guessesAreValidFor ["apple"] "ankle" (Some "angle") = Some true
  /\ (scoreClues ["apple"] "ankle" <= scoreClues ["apple"] "angle")%Q.
Proof.
  apply (selector_target_has_least_score
           ["apple"; "angle"; "ankle"; "maple"] (Some "angle") ["apple"] 1
           (mkReselection (Some "ankle") ["angle"; "ankle"] (Finite (3 # 1)) 2)
           "ankle" "angle").
  - vm_compute. reflexivity.
  - reflexivity.
  - simpl. right. left. reflexivity.
  - vm_compute. reflexivity.
Defined.

(** X3.  The selector is stable: run again on the pool and the target it
    has just produced, with the same history, it returns the same pool,
    the same minimum and the same count; only the draw can move the
    target inside that pool. *)
Theorem selector_is_stable pool old history r r' sel nt :
  findNewWorstTarget pool (Some old) history r = Some sel ->
  newTarget sel = Some nt ->
  findNewWorstTarget (leastHelpful sel) (Some nt) history r'
  = Some (mkReselection (pick r' (leastHelpful sel)) (leastHelpful sel)
            (minScore sel) (logged sel)).
Proof.
  rewrite !findNewWorstTarget_defined. cbv zeta.
  set (valid := filter (consistent history old) pool).
  intros [= <-]. simpl. intros Hnt.
  apply pick_In in Hnt. pose proof Hnt as Hin.
  apply filter_In in Hnt as [_ Hnt].
  assert (Hsame : filter (consistent history nt) valid = valid).
  { apply filter_all. intros t Ht. apply filter_In in Ht as [_ Ht].
    rewrite consistent_sym in Hnt.
    now apply consistent_trans with old. }
  rewrite Hsame. rewrite (scoreClues_consistent history old nt Hnt).
  reflexivity.
Qed.

Lemma selector_is_stable_witness :
  findNewWorstTarget ["angle"; "ankle"] (Some "ankle") ["apple"] 0
  = Some (mkReselection (pick 0 ["angle"; "ankle"]) ["angle"; "ankle"]
            (Finite (3 # 1)) 2).
Proof.
  apply (selector_is_stable ["apple"; "angle"; "ankle"; "maple"] "angle"
           ["apple"] 1 0
           (mkReselection (Some "ankle") ["angle"; "ankle"] (Finite (3 # 1)) 2)
           "ankle").
  - vm_compute. reflexivity.
  - reflexivity.
Defined.

(** X4.  With a defined target the consistency check never throws, although
    it indexes the old clue sequence with the positions of the new one: it
    returns whether the candidate gives the clues of the target for every
    guess.  With an undefined target it accepts every candidate when there
    is no guess and throws otherwise. *)
Theorem validity_check_outcome history tar old :
  (exists b,
     guessesAreValidFor history tar (Some old) = Some b
     /\ (b = true <->
         forall g, In g history -> cluesOf (clue g tar) = cluesOf (clue g old)))
  /\ guessesAreValidFor history tar None
     = match history with [] => Some true | _ :: _ => None end.
Proof.
  split.
  - exists (consistent history old tar).
    split; [apply guessesAreValidFor_defined | apply consistent_true].
  - now destruct history.
Qed.

(** X5.  On words the consistency check is an equivalence: every word is a
    valid replacement of itself, the check does not depend on which of the
    two words is the candidate, and it is transitive. *)
Theorem validity_check_is_an_equivalence history a b c :
  guessesAreValidFor history a (Some a) = Some true
  /\ guessesAreValidFor history a (Some b) = guessesAreValidFor history b (Some a)
  /\ (guessesAreValidFor history a (Some b) = Some true ->
      guessesAreValidFor history b (Some c) = Some true ->
      guessesAreValidFor history a (Some c) = Some true).
Proof.
  rewrite !guessesAreValidFor_defined. split; [|split].
  - now rewrite consistent_refl.
  - now rewrite consistent_sym.
  - intros [= Hab] [= Hbc]. f_equal.
    rewrite consistent_sym in Hab, Hbc. rewrite consistent_sym.
    now apply consistent_trans with b.
Qed.

(** * Further properties of the scorer *)

Lemma clueValue_le_1 c : (clueValue c <= 1)%Q.
Proof. destruct c; simpl; discriminate. Qed.

Lemma inject_nat_succ n :
  (inject_Z (Z.of_nat (S n)) == 1 + inject_Z (Z.of_nat n))%Q.
Proof. rewrite Nat2Z.inj_succ, <- Z.add_1_l, inject_Z_plus. reflexivity. Qed.

Lemma inject_nat_add n m :
  (inject_Z (Z.of_nat (n + m)) == inject_Z (Z.of_nat n) + inject_Z (Z.of_nat m))%Q.
Proof. rewrite Nat2Z.inj_add, inject_Z_plus. reflexivity. Qed.

Lemma letters_score_le letters :
  (Qsum (map (fun l => clueValue (CluedLetter.clue l)) letters)
   <= inject_Z (Z.of_nat (List.length letters)))%Q.
Proof.
  induction letters as [|l letters IH]; [simpl; discriminate|].
  cbn [map Qsum fold_right List.length]. rewrite inject_nat_succ.
  apply Qplus_le_compat; [apply clueValue_le_1 | exact IH].
Qed.

Lemma letters_score_all_correct letters :
  cluesOf letters = repeat Correct (List.length letters) ->
  (Qsum (map (fun l => clueValue (CluedLetter.clue l)) letters)
   == inject_Z (Z.of_nat (List.length letters)))%Q.
Proof.
  induction letters as [|l letters IH]; intros H; [reflexivity|].
  cbn [map Qsum fold_right List.length cluesOf repeat] in *.
  injection H as Hl H. rewrite inject_nat_succ, Hl, (IH H). reflexivity.
Qed.

(** X6.  The score of a candidate lies between 0 and the number of letters
    guessed, and a history made of the candidate alone reaches the upper
    bound. *)
Theorem score_bounds history t :
  (0 <= scoreClues history t)%Q
  /\ (scoreClues history t
      <= inject_Z (Z.of_nat (list_sum (map String.length history))))%Q
  /\ (scoreClues [t] t == inject_Z (Z.of_nat (String.length t)))%Q.
Proof.
  rewrite !scoreClues_sum. split; [apply score_nonneg|]. split.
  - unfold score. induction history as [|g history IH]; [simpl; discriminate|].
    cbn [map Qsum fold_right list_sum]. rewrite inject_nat_add.
    apply Qplus_le_compat; [|exact IH].
    rewrite <- (clue_length g t). apply letters_score_le.
  - unfold score. cbn [map Qsum fold_right]. rewrite Qplus_0_r.
    rewrite <- (clue_length t t). apply letters_score_all_correct.
    now rewrite clue_self, clue_length.
Qed.

(** X7.  The score is additive over the history: the score for two
    histories put end to end is the sum of the scores for each. *)
Theorem score_is_additive history more t :
  (scoreClues (history ++ more) t
   == scoreClues history t + scoreClues more t)%Q.
Proof. rewrite !scoreClues_sum. apply score_app. Qed.

(** * Further properties of the game *)

Lemma list_ascii_of_string_app s t :
  list_ascii_of_string (s ++ t)
  = (list_ascii_of_string s ++ list_ascii_of_string t)%list.
Proof. induction s as [|c s IH]; simpl; [reflexivity | now rewrite IH]. Qed.

Lemma list_ascii_of_string_prefix n : forall s,
  list_ascii_of_string (substring 0 n s) = firstn n (list_ascii_of_string s).
Proof.
  induction n as [|n IH]; intros [|c s]; simpl; try reflexivity.
  now rewrite IH.
Qed.

Lemma Forall_prefix {A} (P : A -> Prop) n (l : list A) :
  Forall P l -> Forall P (firstn n l).
Proof.
  intros H. rewrite <- (firstn_skipn n l) in H.
  now apply Forall_app in H as [H _].
Qed.

Lemma isLowercaseLetter_true key :
  isLowercaseLetter key = true ->
  exists c, key = String c EmptyString /\ isLowercase c = true.
Proof.
  destruct key as [|c [|d key]]; simpl; try discriminate. eauto.
Qed.

Lemma sliceTo_length n s : String.length (sliceTo n s) <= n.
Proof.
  unfold sliceTo.
  rewrite <- length_list_ascii_of_string, list_ascii_of_string_prefix.
  rewrite length_firstn. lia.
Qed.

Lemma dropLast_length s : String.length (dropLast s) <= String.length s.
Proof.
  unfold dropLast.
  rewrite <- !length_list_ascii_of_string, list_ascii_of_string_prefix.
  rewrite length_firstn, length_list_ascii_of_string. lia.
Qed.

Section Rows.

Variables dictionary common names : list string.
Variable props : GameProps.

(** The effect does not touch what [Rows] reads. *)
Lemma guessesEffect_Rows r st st' out :
  guessesEffect r st = Some (st', out) ->
  Rows dictionary props st -> Rows dictionary props st'.
Proof.
  intros H. destruct (guessesEffect_frame _ _ _ _ H) as (_ & Hg & Hc & Hw & _).
  unfold Rows. now rewrite Hg, Hc, Hw.
Qed.

(** A key keeps the input row within the word length and made of
    lower-case letters, and locks only full rows that are words. *)
Lemma onKey_Rows r key st st1 flag :
  onKey dictionary props r key st = Some (st1, flag) ->
  Rows dictionary props st -> Rows dictionary props st1.
Proof.
  unfold onKey, Rows. intros H (Hlen & Hlow & Hlocked & Hmax).
  destruct (negb (GameState_eqb (gameState st) Playing)).
  { destruct (key =? "Enter")%string; injection H as <- _; simpl; auto.
    repeat split; auto. lia. lia. }
  destruct (List.length (guesses st) =? maxGuesses props)%nat eqn:Emax;
    [injection H as <- _; auto|].
  apply Nat.eqb_neq in Emax.
  destruct (isLowercaseLetter key) eqn:Ekey.
  { injection H as <- _. simpl.
    apply isLowercaseLetter_true in Ekey as (c & -> & Hc).
    split; [apply sliceTo_length|]. split; [|auto].
    unfold sliceTo.
    rewrite list_ascii_of_string_prefix, list_ascii_of_string_app.
    apply Forall_prefix, Forall_app. split; [assumption|].
    simpl. constructor; [assumption | constructor]. }
  destruct (key =? "Backspace")%string.
  { injection H as <- _. simpl.
    split; [pose proof (dropLast_length (currentGuess st)); lia|].
    split; [|auto].
    unfold dropLast. rewrite list_ascii_of_string_prefix.
    now apply Forall_prefix. }
  destruct (key =? "Enter")%string; [|injection H as <- _; auto].
  destruct (String.length (currentGuess st) =? wordLength st)%nat eqn:Efull;
    simpl in H; [|injection H as <- _; simpl; auto].
  apply Nat.eqb_eq in Efull.
  destruct (includes dictionary (currentGuess st)) eqn:Edict;
    simpl in H; [|injection H as <- _; simpl; auto].
  apply includes_In in Edict.
  assert (Hcommitted :
            (0 <= wordLength st)%nat
            /\ Forall (fun c => isLowercase c = true) (list_ascii_of_string "")
            /\ Forall (fun g => String.length g = wordLength st /\ In g dictionary)
                 (guesses st ++ [currentGuess st])
            /\ (List.length (guesses st ++ [currentGuess st]) <= maxGuesses props)%nat).
  { split; [lia|]. split; [constructor|]. split.
    - apply Forall_app. split; [assumption|]. constructor; [now split | constructor].
    - rewrite length_app. simpl. lia. }
  destruct (match target st with
            | Some t => (currentGuess st =? t)%string
            | None => false
            end); [injection H as <- _; exact Hcommitted|].
  destruct (List.length (guesses st) + 1 =? maxGuesses props)%nat;
    [destruct (target st); [|discriminate]|];
    injection H as <- _; exact Hcommitted.
Qed.

Lemma reachable_Rows st :
  reachable dictionary common names props st -> Rows dictionary props st.
Proof.
  induction 1 as [r1 r2 st out Hm | r1 r2 ev st st' out Hr IH Hen Hd].
  - apply mount_inv in Hm as [Hm _].
    apply (guessesEffect_Rows _ _ _ _ Hm). unfold Rows. simpl.
    repeat split; auto; lia.
  - apply dispatch_inv in Hd as [Hd _].
    destruct ev as [key | len |]; simpl in Hd.
    + destruct (onKey dictionary props r1 key st) as [[st1 flag]|] eqn:Ek;
        [|discriminate].
      pose proof (onKey_Rows _ _ _ _ _ Ek IH) as H1.
      destruct flag; [now apply (guessesEffect_Rows _ _ _ _ Hd)|].
      now injection Hd as <- _.
    + injection Hd as <- _. simpl in Hen.
      apply andb_prop in Hen as [Hdis _]. apply negb_true_iff in Hdis.
      unfold sliderDisabled in Hdis. apply orb_false_elim in Hdis as [Hg Hc].
      apply Nat.ltb_ge in Hg. apply negb_false_iff, String.eqb_eq in Hc.
      destruct IH as (_ & _ & _ & Hmax).
      unfold Rows. simpl. rewrite Hc.
      destruct (guesses st); [|simpl in Hg; lia].
      repeat split; auto; simpl; lia.
    + unfold onClick in Hd. destruct (target st); [|discriminate].
      now injection Hd as <- _.
Qed.

End Rows.

Section Phases.

Variables dictionary common names : list string.
Variable props : GameProps.

(** A key that leads from [Playing] to [Won] is the commit of the
    target. *)
Lemma onKey_won r key st st1 flag :
  gameState st = Playing ->
  onKey dictionary props r key st = Some (st1, flag) ->
  gameState st1 = Won ->
  flag = true /\ target st = Some (currentGuess st)
  /\ guesses st1 = guesses st ++ [currentGuess st]
  /\ target st1 = target st /\ targets st1 = targets st.
Proof.
  intros Hp. unfold onKey. rewrite Hp. simpl.
  destruct (List.length (guesses st) =? maxGuesses props)%nat;
    [intros [= <- _]; congruence|].
  destruct (isLowercaseLetter key); [intros [= <- _]; simpl; congruence|].
  destruct (key =? "Backspace")%string; [intros [= <- _]; simpl; congruence|].
  destruct (key =? "Enter")%string; [|intros [= <- _]; congruence].
  destruct (negb _); [intros [= <- _]; simpl; congruence|].
  destruct (negb _); [intros [= <- _]; simpl; congruence|].
  destruct (target st) as [t|] eqn:Et.
  - destruct (currentGuess st =? t)%string eqn:E.
    + apply String.eqb_eq in E. subst t. intros [= <- <-]. simpl. auto.
    + destruct (_ =? _)%nat; intros [= <- _]; simpl; congruence.
  - destruct (_ =? _)%nat; [discriminate|]. intros [= <- _]; simpl; congruence.
Qed.

(** Among words of its length, only the guessed word stays in the pool
    after a guess that is the target. *)
Lemma pool_after_win pool history w :
  (forall t, In t pool -> String.length t = String.length w) ->
  forall t, In t (filter (consistent (history ++ [w]) w) pool) -> t = w.
Proof.
  intros Hlen t Ht. apply filter_In in Ht as [Hpool Hc].
  rewrite consistent_true in Hc. apply clue_all_correct.
  - now apply Hlen.
  - apply Hc, in_or_app. right. now left.
Qed.

Lemma pool_words_length st t :
  Inv dictionary common names props st ->
  In t (targets st) -> String.length t = wordLength st.
Proof.
  intros [_ _ I3 _ _ _] Hin. apply I3 in Hin. unfold allTargets in Hin.
  apply filter_In in Hin as [_ Hl]. now apply Nat.eqb_eq in Hl.
Qed.

(** In the phase [Won] the last locked guess is the target, and the pool
    holds nothing else. *)
Lemma reachable_Won st :
  reachable dictionary common names props st ->
  gameState st = Won ->
  exists w, target st = Some w /\ last (guesses st) "" = w
            /\ forall t, In t (targets st) -> t = w.
Proof.
  induction 1 as [r1 r2 st out Hm | r1 r2 ev st st' out Hr IH Hen Hd].
  - apply mount_inv in Hm as [Hm _].
    destruct (guessesEffect_frame _ _ _ _ Hm) as (Hgs & _). simpl in Hgs.
    congruence.
  - intros Hwon. pose proof (reachable_Inv _ _ _ _ _ Hr) as HInv.
    apply dispatch_inv in Hd as [Hd _].
    destruct ev as [key | len |]; simpl in Hd.
    + destruct (onKey dictionary props r1 key st) as [[st1 flag]|] eqn:Ek;
        [|discriminate].
      destruct (onKey_shape _ _ _ _ _ _ _ Ek)
        as (Hpool & _ & [(-> & Hg1 & Ht1 & Hgs1) | [(-> & _ & ->) | (-> & Hp & _)]]).
      * injection Hd as <- _. rewrite Hpool, Hg1, Ht1. apply IH. congruence.
      * destruct (guessesEffect_frame _ _ _ _ Hd) as (Hgs & _). simpl in Hgs.
        congruence.
      * destruct (guessesEffect_frame _ _ _ _ Hd) as (Hgs & Hg & _).
        rewrite Hgs in Hwon.
        destruct (onKey_won _ _ _ _ _ Hp Ek Hwon) as (_ & Ht & Hg1 & Ht1 & Hp1).
        set (w := currentGuess st) in *.
        revert Hd. unfold guessesEffect.
        rewrite Ht1, Ht, findNewWorstTarget_defined, Hp1, Hg1. cbv zeta.
        intros [= <- _]. simpl.
        pose proof (inv_target_in_pool _ _ _ _ _ HInv w Ht) as Hin.
        assert (Honly : forall t,
                   In t (filter (consistent (guesses st ++ [w]) w) (targets st)) ->
                   t = w).
        { apply pool_after_win. intros t Hp'.
          rewrite (pool_words_length st t HInv Hp').
          now rewrite (pool_words_length st w HInv Hin). }
        destruct (pick_nonempty r2
                    (filter (consistent (guesses st ++ [w]) w) (targets st)))
          as [nt Hnt].
        { intros E.
          assert (Hv : In w (filter (consistent (guesses st ++ [w]) w) (targets st)))
            by (apply filter_In; split; [assumption | apply consistent_refl]).
          rewrite E in Hv. destruct Hv. }
        pose proof (Honly nt (pick_In _ _ _ Hnt)) as ->.
        exists w. rewrite Hnt, ?Hg1, last_last. auto.
    + injection Hd as <- _. simpl in Hwon, Hen. exfalso.
      apply andb_prop in Hen as [Hdis _]. apply negb_true_iff in Hdis.
      unfold sliderDisabled in Hdis. apply orb_false_elim in Hdis as [Hg _].
      apply Nat.ltb_ge in Hg.
      assert (Hne : guesses st <> [])
        by (apply (inv_finished _ _ _ _ _ HInv); congruence).
      destruct (guesses st); [congruence | simpl in Hg; lia].
    + unfold onClick in Hd. destruct (target st); [|discriminate].
      injection Hd as <- _. simpl in Hwon. discriminate.
Qed.

(** X9.  Whenever the component waits for an event, the input row is no
    longer than the word length and holds lower-case letters only. *)
Theorem input_row_invariant st :
  reachable dictionary common names props st ->
  String.length (currentGuess st) <= wordLength st
  /\ Forall (fun c => isLowercase c = true)
       (list_ascii_of_string (currentGuess st)).
Proof.
  intros Hr. destruct (reachable_Rows _ _ _ _ _ Hr) as (H1 & H2 & _). auto.
Qed.

(** X10.  Whenever the component waits for an event, every locked guess has
    exactly the word length and is a word of the dictionary, and there are
    at most [maxGuesses] of them. *)
Theorem locked_guesses_invariant st :
  reachable dictionary common names props st ->
  Forall (fun g => String.length g = wordLength st /\ In g dictionary)
    (guesses st)
  /\ List.length (guesses st) <= maxGuesses props.
Proof.
  intros Hr. destruct (reachable_Rows _ _ _ _ _ Hr) as (_ & _ & H3 & H4). auto.
Qed.

(** X11.  Whenever the component waits for an event, the pool is included
    in the candidates for the current word length, a defined target is a
    member of the pool, and the target is undefined exactly when the pool
    is empty. *)
Theorem target_pool_invariant st :
  reachable dictionary common names props st ->
  incl (targets st) (allTargets dictionary common names (wordLength st))
  /\ (forall tg, target st = Some tg -> In tg (targets st))
  /\ (target st = None <-> targets st = []).
Proof.
  intros Hr. destruct (reachable_Inv _ _ _ _ _ Hr) as [I1 I2 I3 _ _ _].
  repeat split; auto.
  intros E. destruct (target st) as [tg|] eqn:Et; [|reflexivity].
  specialize (I1 tg eq_refl). rewrite E in I1. destruct I1.
Qed.

(** X12.  Whenever the component waits for an event: in the phase [Won] the
    last locked guess is the target and the pool holds no other word; a
    game that is over has at least one locked guess; and while playing
    with a positive [maxGuesses] at least one guess is left. *)
Theorem phase_invariant st :
  reachable dictionary common names props st ->
  (gameState st = Won ->
   exists w, target st = Some w /\ last (guesses st) "" = w
             /\ forall t, In t (targets st) -> t = w)
  /\ (gameState st <> Playing -> guesses st <> [])
  /\ (0 < maxGuesses props -> gameState st = Playing ->
      List.length (guesses st) < maxGuesses props).
Proof.
  intros Hr. split; [now apply reachable_Won|].
  destruct (reachable_Inv _ _ _ _ _ Hr) as [_ _ _ I4 I5 _]. auto.
Qed.

End Phases.

(** The example session after a first guess that is wrong. *)
Lemma guessed_maple_reachable :
  reachable demoDictionary demoCommon demoNames demoProps
    (mkState Playing ["maple"] "" 5 "" ["apple"] (Some "apple")).
Proof.
  apply (run_reachable _ _ _ _ (typeWord 0 "maple" ++ pressEnter 0 0) demoStart).
  - apply demoStart_reachable.
  - vm_compute. reflexivity.
Qed.

(** The example session after the target is guessed. *)
Lemma won_apple_reachable :
  reachable demoDictionary demoCommon demoNames demoProps
    (mkState Won ["apple"] "" 5 wonHint ["apple"] (Some "apple")).
Proof.
  apply (run_reachable _ _ _ _ (typeWord 0 "apple" ++ pressEnter 0 0) demoStart).
  - apply demoStart_reachable.
  - vm_compute. reflexivity.
Qed.

Lemma input_row_invariant_witness :
  String.length "aaaaa" <= 5
  /\ Forall (fun c => isLowercase c = true) (list_ascii_of_string "aaaaa").
Proof.
  apply (input_row_invariant demoDictionary demoCommon demoNames demoProps
           (mkState Playing [] "aaaaa" 5 ""
              ["apple"; "angle"; "ankle"; "maple"] (Some "apple"))).
  apply typed_aaaaa_reachable.
Defined.

Lemma locked_guesses_invariant_witness :
  Forall (fun g => String.length g = 5 /\ In g demoDictionary) ["maple"]
  /\ List.length ["maple"] <= 6.
Proof.
  apply (locked_guesses_invariant demoDictionary demoCommon demoNames demoProps
           (mkState Playing ["maple"] "" 5 "" ["apple"] (Some "apple"))).
  apply guessed_maple_reachable.
Defined.

Lemma target_pool_invariant_witness :
  incl ["apple"] (allTargets demoDictionary demoCommon demoNames 5)
  /\ (forall tg, Some "apple" = Some tg -> In tg ["apple"])
  /\ (Some "apple" = None <-> ["apple"] = []).
Proof.
  apply (target_pool_invariant demoDictionary demoCommon demoNames demoProps
           (mkState Playing ["maple"] "" 5 "" ["apple"] (Some "apple"))).
  apply guessed_maple_reachable.
Defined.

Lemma phase_invariant_witness :
  (Won = Won ->
   exists w, Some "apple" = Some w /\ last ["apple"] "" = w
             /\ forall t, In t ["apple"] -> t = w)
  /\ (Won <> Playing -> ["apple"] <> [])
  /\ (0 < 6 -> Won = Playing -> List.length ["apple"] < 6).
Proof.
  apply (phase_invariant demoDictionary demoCommon demoNames demoProps
           (mkState Won ["apple"] "" 5 wonHint ["apple"] (Some "apple"))).
  apply won_apple_reachable.
Defined.

(** ** Typing *)

Lemma sliceTo_short n s : String.length s <= n -> sliceTo n s = s.
Proof.
  intros H. apply list_ascii_of_string_inj. unfold sliceTo.
  rewrite list_ascii_of_string_prefix. apply firstn_all2.
  now rewrite length_list_ascii_of_string.
Qed.

Lemma sliceTo_full n s c :
  String.length s = n -> sliceTo n (s ++ String c EmptyString) = s.
Proof.
  intros H. apply list_ascii_of_string_inj. unfold sliceTo.
  rewrite list_ascii_of_string_prefix, list_ascii_of_string_app.
  rewrite <- H, <- length_list_ascii_of_string.
  rewrite firstn_app, Nat.sub_diag, firstn_all. simpl. apply app_nil_r.
Qed.

Lemma length_append s t :
  String.length (s ++ t) = String.length s + String.length t.
Proof.
  rewrite <- !length_list_ascii_of_string, list_ascii_of_string_app.
  apply length_app.
Qed.

Lemma dropLast_append s c : dropLast (s ++ String c EmptyString) = s.
Proof.
  apply list_ascii_of_string_inj. unfold dropLast.
  rewrite list_ascii_of_string_prefix, list_ascii_of_string_app, length_append.
  simpl. rewrite Nat.add_sub, <- length_list_ascii_of_string.
  rewrite firstn_app, Nat.sub_diag, firstn_all. simpl. apply app_nil_r.
Qed.

Section Typing.

Variables dictionary common names : list string.
Variable props : GameProps.

Lemma onKey_letter r c st :
  gameState st = Playing ->
  List.length (guesses st) <> maxGuesses props ->
  isLowercase c = true ->
  onKey dictionary props r (String c EmptyString) st
  = Some (setHint ""
            (setCurrentGuess
               (sliceTo (wordLength st) (currentGuess st ++ String c EmptyString))
               st),
          false).
Proof.
  intros Hp Hmax Hc. unfold onKey. rewrite Hp. simpl.
  apply Nat.eqb_neq in Hmax. now rewrite Hmax, Hc.
Qed.

(** X13.  In a state that is on screen, while playing with guesses left,
    a letter typed on a row that is not full is appended to the row, and
    Backspace then restores the row; both keys clear the hint and neither
    runs the selector. *)
Theorem letter_then_backspace st c r1 r2 q1 q2 :
  render props st <> None ->
  gameState st = Playing ->
  List.length (guesses st) <> maxGuesses props ->
  isLowercase c = true ->
  String.length (currentGuess st) < wordLength st ->
  dispatch dictionary common names props r1 r2 (Key (String c EmptyString)) st
  = Some (setHint ""
            (setCurrentGuess (currentGuess st ++ String c EmptyString) st), [])
  /\ dispatch dictionary common names props q1 q2 (Key "Backspace")
       (setHint ""
          (setCurrentGuess (currentGuess st ++ String c EmptyString) st))
     = Some (setHint "" st, []).
Proof.
  intros Hshown Hp Hmax Hc Hlen. split.
  - apply dispatch_key_unchanged.
    + rewrite onKey_letter by assumption.
      rewrite sliceTo_short; [reflexivity|].
      rewrite length_append. simpl. lia.
    + now apply (render_same_target props st).
  - apply dispatch_key_unchanged.
    + unfold onKey. simpl. rewrite Hp. simpl.
      apply Nat.eqb_neq in Hmax. rewrite Hmax.
      rewrite dropLast_append. reflexivity.
    + now apply (render_same_target props st).
Qed.

(** X14.  In a state that is on screen, while playing with guesses left,
    a letter typed on a full row is dropped: the row is unchanged and only
    the hint is cleared. *)
Theorem letter_on_a_full_row st c r1 r2 :
  render props st <> None ->
  gameState st = Playing ->
  List.length (guesses st) <> maxGuesses props ->
  isLowercase c = true ->
  String.length (currentGuess st) = wordLength st ->
  dispatch dictionary common names props r1 r2 (Key (String c EmptyString)) st
  = Some (setHint "" st, []).
Proof.
  intros Hshown Hp Hmax Hc Hlen. apply dispatch_key_unchanged.
  - rewrite onKey_letter by assumption. now rewrite sliceTo_full.
  - now apply (render_same_target props st).
Qed.

(** X15.  A wrong guess committed while more than one guess is left keeps
    the game in [Playing], locks the guess, clears the input row and the
    hint, and narrows the pool to the candidates that answer every locked
    guess like the target did: the previous target stays in the pool, so
    the new target is defined, and the guessed word leaves it. *)
Theorem wrong_guess_with_guesses_left st tg r1 r2 :
  reachable dictionary common names props st ->
  gameState st = Playing ->
  List.length (guesses st) + 1 < maxGuesses props ->
  String.length (currentGuess st) = wordLength st ->
  In (currentGuess st) dictionary ->
  target st = Some tg ->
  currentGuess st <> tg ->
  exists st',
    dispatch dictionary common names props r1 r2 (Key "Enter") st
    = Some (st', [List.length (targets st')])
    /\ gameState st' = Playing
    /\ guesses st' = guesses st ++ [currentGuess st]
    /\ currentGuess st' = ""
    /\ hint st' = ""
    /\ targets st'
       = filter (consistent (guesses st ++ [currentGuess st]) tg) (targets st)
    /\ In tg (targets st')
    /\ ~ In (currentGuess st) (targets st')
    /\ exists nt, target st' = Some nt /\ In nt (targets st').
Proof.
  intros Hr Hp Hleft Hlen Hdict Ht Hwrong.
  pose proof (reachable_Inv _ _ _ _ _ Hr) as HInv.
  pose proof (inv_target_in_pool _ _ _ _ _ HInv tg Ht) as Hin.
  simpl. rewrite onKey_Enter_playing by (auto; lia).
  rewrite Hlen, Nat.eqb_refl. simpl.
  apply includes_In in Hdict. rewrite Hdict. simpl.
  rewrite Ht. pose proof Hwrong as Hneq.
  apply String.eqb_neq in Hwrong. rewrite Hwrong.
  replace (List.length (guesses st) + 1 =? maxGuesses props)%nat with false
    by (symmetry; apply Nat.eqb_neq; lia).
  rewrite after_render by (apply render_returns with tg; exact Ht).
  unfold guessesEffect. simpl. rewrite Ht, findNewWorstTarget_defined. cbv zeta.
  set (valid := filter (consistent (guesses st ++ [currentGuess st]) tg)
                  (targets st)).
  assert (Hv : In tg valid)
    by (apply filter_In; split; [assumption | apply consistent_refl]).
  destruct (pick_nonempty r2 valid) as [nt Hnt];
    [intros E; rewrite E in Hv; destruct Hv|].
  rewrite Hnt.
  rewrite rendered_returns by (apply render_returns with nt; reflexivity).
  match goal with |- exists st', Some (?s, _) = _ /\ _ => exists s end.
  simpl. repeat split; auto.
  - intros Hg. apply filter_In in Hg as [Hpool Hc].
    rewrite consistent_true in Hc. apply Hneq. symmetry.
    apply clue_all_correct.
    + rewrite (pool_words_length _ _ _ _ st tg HInv Hin). now symmetry.
    + symmetry. apply Hc, in_or_app. right. now left.
  - exists nt. split; [reflexivity | now apply pick_In in Hnt].
Qed.

(** X16.  On a non-empty pool the give-up button, when it is enabled,
    never throws: the game was being played with at least one locked
    guess, the phase becomes [Lost], the hint prints the target, which is
    a word of the pool, and nothing else changes; the selector does not
    run. *)
Theorem give_up_reveals_the_target st r1 r2 :
  reachable dictionary common names props st ->
  enabled st GiveUp = true ->
  targets st <> [] ->
  exists tg,
    target st = Some tg /\ In tg (targets st)
    /\ gameState st = Playing /\ guesses st <> []
    /\ dispatch dictionary common names props r1 r2 GiveUp st
       = Some (setGameState Lost (setHint (gaveUpHint tg) st), []).
Proof.
  intros Hr Hen Hpool.
  pose proof (reachable_Inv _ _ _ _ _ Hr) as [I1 I2 _ _ _ _].
  destruct (target st) as [tg|] eqn:Et; [|now specialize (I2 eq_refl)].
  exists tg. simpl in Hen. apply negb_true_iff in Hen.
  unfold giveUpDisabled in Hen. apply orb_false_elim in Hen as [Hp Hg].
  apply negb_false_iff in Hp. apply Nat.eqb_neq in Hg.
  repeat split; auto.
  - now destruct (gameState st).
  - intros E. now rewrite E in Hg.
  - simpl. unfold onClick. rewrite Et.
    apply rendered_returns, render_returns with tg. exact Et.
Qed.

(** X17.  Once a game is over, Enter is the only event that does
    anything: every other key leaves the state as it is without running
    the selector, and the slider and the give-up button are disabled. *)
Theorem finished_game_accepts_only_enter st key n r1 r2 :
  reachable dictionary common names props st ->
  gameState st <> Playing ->
  key <> "Enter" ->
  dispatch dictionary common names props r1 r2 (Key key) st = Some (st, [])
  /\ enabled st GiveUp = false
  /\ enabled st (SetLength n) = false.
Proof.
  intros Hr Hp Hkey.
  pose proof (inv_finished _ _ _ _ _ (reachable_Inv _ _ _ _ _ Hr) Hp) as Hg.
  assert (Hover : negb (GameState_eqb (gameState st) Playing) = true)
    by (destruct (gameState st); simpl; congruence).
  split; [|split].
  - apply dispatch_key_unchanged.
    + unfold onKey. rewrite Hover.
      apply String.eqb_neq in Hkey. now rewrite Hkey.
    + exact (reachable_renders _ _ _ _ _ Hr).
  - simpl. unfold giveUpDisabled. now rewrite Hover.
  - simpl. unfold sliderDisabled.
    destruct (guesses st); [congruence | reflexivity].
Qed.

(** X18.  In a state with a non-empty pool a key never throws and the
    give-up button never throws, and both leave a non-empty pool.  A move
    of the slider throws exactly when the chosen length has no candidate
    and the grid has a row: the handler leaves the target undefined and
    the render that follows reads its letters. *)
Theorem events_on_a_nonempty_pool st r1 r2 :
  reachable dictionary common names props st ->
  targets st <> [] ->
  (forall key, exists st' out,
     dispatch dictionary common names props r1 r2 (Key key) st = Some (st', out)
     /\ targets st' <> [])
  /\ (exists st' out,
        dispatch dictionary common names props r1 r2 GiveUp st = Some (st', out)
        /\ targets st' <> [])
  /\ (forall n,
        dispatch dictionary common names props r1 r2 (SetLength n) st = None
        <-> allTargets dictionary common names n = [] /\ 0 < maxGuesses props).
Proof.
  intros Hr Hpool.
  pose proof (reachable_Inv _ _ _ _ _ Hr) as [I1 I2 _ _ _ _].
  destruct (target st) as [tg|] eqn:Et; [|now specialize (I2 eq_refl)].
  specialize (I1 tg eq_refl).
  split; [|split].
  - intros key.
    destruct (key_event dictionary common names props r1 r2 key st tg Et I1)
      as (st' & out & tg' & Hd & _ & Hin & _).
    exists st', out. split; [exact Hd|].
    intros E. rewrite E in Hin. destruct Hin.
  - exists (setGameState Lost (setHint (gaveUpHint tg) st)), [].
    split; [|exact Hpool].
    simpl. unfold onClick. rewrite Et.
    apply rendered_returns, render_returns with tg. exact Et.
  - intros n. simpl. unfold rendered.
    set (st1 := onChange dictionary common names r1 n st).
    assert (Ht1 : target st1 = pick r1 (allTargets dictionary common names n))
      by reflexivity.
    split.
    + intros Hd.
      assert (Hthrows : render props st1 = None)
        by (destruct (render props st1); [discriminate | reflexivity]).
      destruct (maxGuesses props) as [|m] eqn:Em.
      * exfalso. revert Hthrows. apply render_returns_iff. now right.
      * split; [|lia].
        destruct (pick r1 (allTargets dictionary common names n)) as [t|] eqn:Ep.
        -- exfalso. revert Hthrows. apply render_returns with t. congruence.
        -- now apply pick_None in Ep.
    + intros [Hnil Hpos].
      rewrite render_throws; [reflexivity | | exact Hpos].
      rewrite Ht1, Hnil. apply pick_nil.
Qed.

(** X19.  Keys and the give-up button never widen the pool: after any run
    of events without a move of the slider, the pool is included in the
    pool the run started from and is no longer than it.  In particular
    Enter after a finished game does not bring back the candidates the
    game removed. *)
Theorem pool_never_widens events st st' :
  (forall n rs, ~ In (SetLength n, rs) events) ->
  run dictionary common names props events st = Some st' ->
  incl (targets st') (targets st)
  /\ List.length (targets st') <= List.length (targets st).
Proof.
  revert st. induction events as [|[ev [r1 r2]] events IH]; intros st Hno; simpl.
  - intros [= <-]. split; [apply incl_refl | lia].
  - destruct (enabled st ev); [|discriminate].
    destruct (dispatch dictionary common names props r1 r2 ev st)
      as [[st1 out]|] eqn:Hd; [|discriminate].
    intros Hrun. apply IH in Hrun as [Hi Hl];
      [|intros n rs Hin; apply (Hno n rs); now right].
    assert (H1 : incl (targets st1) (targets st)
                 /\ List.length (targets st1) <= List.length (targets st)).
    { destruct ev as [key | len |].
      - now apply (key_shrinks_pool dictionary common names props r1 r2 key st st1 out).
      - exfalso. apply (Hno len (r1, r2)). now left.
      - apply dispatch_inv in Hd as [Hd _].
        unfold onClick in Hd. destruct (target st); [|discriminate].
        injection Hd as <- _. simpl. split; [apply incl_refl | lia]. }
    destruct H1 as [Hi1 Hl1]. split; [|lia].
    intros t Ht. apply Hi1, Hi, Ht.
Qed.

(** X20.  A move of the slider onto a length that has a candidate starts
    a fresh session: the handler does not set the phase, but the slider is
    enabled only in states whose phase is [Playing]; the new state has no
    locked guess, an empty input row, the candidates of the chosen length
    as its pool, a target drawn from them, and the length as its hint.
    The length is between 4 and 11. *)
Theorem slider_starts_a_fresh_session st n r1 r2 :
  reachable dictionary common names props st ->
  enabled st (SetLength n) = true ->
  allTargets dictionary common names n <> [] ->
  exists tg,
    pick r1 (allTargets dictionary common names n) = Some tg
    /\ In tg (allTargets dictionary common names n)
    /\ dispatch dictionary common names props r1 r2 (SetLength n) st
       = Some (mkState Playing [] "" n (numberToString n ++ " letters")
                 (allTargets dictionary common names n) (Some tg),
               [])
    /\ 4 <= n <= 11.
Proof.
  intros Hr Hen Hcand. simpl in Hen.
  apply andb_prop in Hen as [Hdis Hrange]. apply negb_true_iff in Hdis.
  unfold sliderDisabled in Hdis. apply orb_false_elim in Hdis as [Hg Hc].
  apply Nat.ltb_ge in Hg. apply negb_false_iff, String.eqb_eq in Hc.
  assert (Eg : guesses st = []) by (destruct (guesses st); simpl in *; [auto|lia]).
  assert (Ep : gameState st = Playing).
  { destruct (gameState st) eqn:E; [reflexivity| |];
      exfalso;
      apply (inv_finished _ _ _ _ _ (reachable_Inv _ _ _ _ _ Hr));
      congruence. }
  destruct (pick_nonempty r1 (allTargets dictionary common names n) Hcand)
    as [tg Hpick].
  exists tg. split; [exact Hpick|]. split; [now apply pick_In in Hpick|]. split.
  - assert (E : onChange dictionary common names r1 n st
                = mkState Playing [] "" n (numberToString n ++ " letters")
                    (allTargets dictionary common names n) (Some tg)).
    { unfold onChange, setHint, setWordLength, setTarget, setTargets.
      simpl. now rewrite Eg, Hc, Ep, Hpick. }
    simpl. rewrite E. apply rendered_returns, render_returns with tg.
    reflexivity.
  - unfold sliderRange in Hrange. apply andb_prop in Hrange as [H4 H11].
    apply Nat.leb_le in H4, H11. lia.
Qed.

End Typing.

(** The example session after a word that is not the target is typed. *)
Lemma typed_maple_reachable :
  reachable demoDictionary demoCommon demoNames demoProps
    (mkState Playing [] "maple" 5 ""
       ["apple"; "angle"; "ankle"; "maple"] (Some "apple")).
Proof.
  apply (run_reachable _ _ _ _ (typeWord 0 "maple") demoStart).
  - apply demoStart_reachable.
  - vm_compute. reflexivity.
Qed.

Lemma letter_then_backspace_witness :
  demoDispatch 0 0 (Key "a") demoStart
  = Some (setHint "" (setCurrentGuess "a" demoStart), [])
  /\ demoDispatch 0 0 (Key "Backspace")
       (setHint "" (setCurrentGuess "a" demoStart))
     = Some (setHint "" demoStart, []).
Proof.
  apply (letter_then_backspace demoDictionary demoCommon demoNames demoProps
           demoStart "a"%char 0 0 0 0).
  - vm_compute. discriminate.
  - reflexivity.
  - simpl. lia.
  - reflexivity.
  - simpl. lia.
Defined.

Lemma letter_on_a_full_row_witness :
  demoDispatch 0 0 (Key "s")
    (mkState Playing [] "apple" 5 "Too short"
       ["apple"; "angle"; "ankle"; "maple"] (Some "apple"))
  = Some (mkState Playing [] "apple" 5 ""
            ["apple"; "angle"; "ankle"; "maple"] (Some "apple"), []).
Proof.
  apply (letter_on_a_full_row demoDictionary demoCommon demoNames demoProps
           (mkState Playing [] "apple" 5 "Too short"
              ["apple"; "angle"; "ankle"; "maple"] (Some "apple"))
           "s"%char 0 0).
  - vm_compute. discriminate.
  - reflexivity.
  - simpl. lia.
  - reflexivity.
  - reflexivity.
Defined.

Lemma wrong_guess_with_guesses_left_witness :
  exists st',
    demoDispatch 0 0 (Key "Enter")
      (mkState Playing [] "maple" 5 ""
         ["apple"; "angle"; "ankle"; "maple"] (Some "apple"))
    = Some (st', [List.length (targets st')])
    /\ gameState st' = Playing
    /\ guesses st' = [] ++ ["maple"]
    /\ currentGuess st' = ""
    /\ hint st' = ""
    /\ targets st'
       = filter (consistent ([] ++ ["maple"]) "apple")
           ["apple"; "angle"; "ankle"; "maple"]
    /\ In "apple" (targets st')
    /\ ~ In "maple" (targets st')
    /\ exists nt, target st' = Some nt /\ In nt (targets st').
Proof.
  apply (wrong_guess_with_guesses_left
           demoDictionary demoCommon demoNames demoProps
           (mkState Playing [] "maple" 5 ""
              ["apple"; "angle"; "ankle"; "maple"] (Some "apple"))
           "apple" 0 0).
  - apply typed_maple_reachable.
  - reflexivity.
  - simpl. lia.
  - reflexivity.
  - simpl. do 3 right. left. reflexivity.
  - reflexivity.
  - simpl. discriminate.
Defined.

Lemma give_up_reveals_the_target_witness :
  exists tg,
    Some "apple" = Some tg /\ In tg ["apple"]
    /\ Playing = Playing /\ ["maple"] <> []
    /\ demoDispatch 0 0 GiveUp
         (mkState Playing ["maple"] "" 5 "" ["apple"] (Some "apple"))
       = Some (mkState Lost ["maple"] "" 5 (gaveUpHint tg) ["apple"]
                 (Some "apple"), []).
Proof.
  apply (give_up_reveals_the_target demoDictionary demoCommon demoNames demoProps
           (mkState Playing ["maple"] "" 5 "" ["apple"] (Some "apple")) 0 0).
  - apply guessed_maple_reachable.
  - reflexivity.
  - simpl. discriminate.
Defined.

Lemma finished_game_accepts_only_enter_witness :
  demoDispatch 0 0 (Key "a")
    (mkState Won ["apple"] "" 5 wonHint ["apple"] (Some "apple"))
  = Some (mkState Won ["apple"] "" 5 wonHint ["apple"] (Some "apple"), [])
  /\ enabled (mkState Won ["apple"] "" 5 wonHint ["apple"] (Some "apple")) GiveUp
     = false
  /\ enabled (mkState Won ["apple"] "" 5 wonHint ["apple"] (Some "apple"))
       (SetLength 7)
     = false.
Proof.
  apply (finished_game_accepts_only_enter
           demoDictionary demoCommon demoNames demoProps
           (mkState Won ["apple"] "" 5 wonHint ["apple"] (Some "apple"))
           "a" 7 0 0).
  - apply won_apple_reachable.
  - simpl. discriminate.
  - discriminate.
Defined.

Lemma mixedStart_reachable :
  reachable mixedDictionary mixedCommon [] demoProps demoStart.
Proof. now apply (reachable_mount _ _ _ _ 0 0 demoStart [4]). Qed.

Lemma events_on_a_nonempty_pool_witness :
  (forall key, exists st' out,
     dispatch mixedDictionary mixedCommon [] demoProps 0 0 (Key key) demoStart
     = Some (st', out)
     /\ targets st' <> [])
  /\ (exists st' out,
        dispatch mixedDictionary mixedCommon [] demoProps 0 0 GiveUp demoStart
        = Some (st', out)
        /\ targets st' <> [])
  /\ (forall n,
        dispatch mixedDictionary mixedCommon [] demoProps 0 0 (SetLength n)
          demoStart = None
        <-> allTargets mixedDictionary mixedCommon [] n = []
            /\ 0 < maxGuesses demoProps).
Proof.
  apply (events_on_a_nonempty_pool
           mixedDictionary mixedCommon [] demoProps demoStart 0 0).
  - apply mixedStart_reachable.
  - simpl. discriminate.
Defined.

(** The slider moved onto a length without candidates: the render
    throws. *)
Example slider_onto_an_empty_length :
  sliderDisabled demoStart = false
  /\ allTargets mixedDictionary mixedCommon [] 11 = []
  /\ dispatch mixedDictionary mixedCommon [] demoProps 0 0 (SetLength 11)
       demoStart = None.
Proof. repeat split. Qed.

Lemma pool_never_widens_witness :
  incl ["apple"] ["apple"; "angle"; "ankle"; "maple"]
  /\ List.length ["apple"] <= List.length ["apple"; "angle"; "ankle"; "maple"].
Proof.
  apply (pool_never_widens demoDictionary demoCommon demoNames demoProps
           (typeWord 0 "apple" ++ pressEnter 0 0 ++ pressEnter 3 1)
           demoStart
           (mkState Playing [] "" 5 "" ["apple"] (Some "apple"))).
  - intros n rs H. simpl in H.
    repeat (destruct H as [H|H]; [discriminate H|]). exact H.
  - vm_compute. reflexivity.
Defined.

Lemma slider_starts_a_fresh_session_witness :
  exists tg,
    pick 0 (allTargets mixedDictionary mixedCommon [] 4) = Some tg
    /\ In tg (allTargets mixedDictionary mixedCommon [] 4)
    /\ dispatch mixedDictionary mixedCommon [] demoProps 0 0 (SetLength 4)
         demoStart
       = Some (mkState Playing [] "" 4 (numberToString 4 ++ " letters")
                 (allTargets mixedDictionary mixedCommon [] 4) (Some tg), [])
    /\ 4 <= 4 <= 11.
Proof.
  apply (slider_starts_a_fresh_session
           mixedDictionary mixedCommon [] demoProps demoStart 4 0 0).
  - apply mixedStart_reachable.
  - reflexivity.
  - vm_compute. discriminate.
Defined.

Example slider_from_five_to_four :
  dispatch mixedDictionary mixedCommon [] demoProps 0 0 (SetLength 4) demoStart
  = Some (mkState Playing [] "" 4 "4 letters" ["word"] (Some "word"), []).
Proof. reflexivity. Qed.

(** X24.  With at least one row in the grid, whenever the component waits
    for an event the target is defined and is a word of the pool: a state
    with an undefined target or an empty pool is never on screen, because
    the render of such a state throws. *)
Theorem target_is_defined_on_screen dictionary common names props st :
  reachable dictionary common names props st ->
  0 < maxGuesses props ->
  exists tg, target st = Some tg /\ In tg (targets st) /\ targets st <> [].
Proof.
  intros Hr Hpos.
  pose proof (reachable_renders _ _ _ _ _ Hr) as Hshown.
  apply render_returns_iff in Hshown as [Ht | Hzero]; [|lia].
  destruct (target st) as [tg|] eqn:Et; [|congruence].
  pose proof (inv_target_in_pool _ _ _ _ _ (reachable_Inv _ _ _ _ _ Hr) tg Et)
    as Hin.
  exists tg. repeat split; [exact Hin|].
  intros E. rewrite E in Hin. destruct Hin.
Qed.

Lemma target_is_defined_on_screen_witness :
  exists tg,
    target (mkState Playing ["apple"] "maple" 5 "" ["angle"; "ankle"]
              (Some "angle")) = Some tg
    /\ In tg ["angle"; "ankle"] /\ ["angle"; "ankle"] <> [].
Proof.
  apply (target_is_defined_on_screen
           demoDictionary demoCommon demoNames demoProps
           (mkState Playing ["apple"] "maple" 5 "" ["angle"; "ankle"]
              (Some "angle"))).
  - apply typed_maple_after_apple_reachable.
  - simpl. lia.
Defined.

(** * Rendering *)

Lemma mapGet_mapSet c letter k info :
  mapGet c (mapSet letter k info)
  = if Ascii.eqb c letter then Some k else mapGet c info.
Proof.
  induction info as [|[k' v'] info IH]; simpl.
  - reflexivity.
  - destruct (Ascii.eqb letter k') eqn:E; simpl.
    + apply Ascii.eqb_eq in E. subst k'.
      destruct (Ascii.eqb c letter); reflexivity.
    + rewrite IH. destruct (Ascii.eqb c k') eqn:E'; [|reflexivity].
      apply Ascii.eqb_eq in E'. subst k'.
      rewrite Ascii.eqb_sym in E. now rewrite E.
Qed.

(** One more clued letter keeps the letter information the best clue of
    every letter seen. *)
Lemma noteLetter_best info letters l :
  bestClues info letters -> bestClues (noteLetter info l) (letters ++ [l]).
Proof.
  intros H c. destruct (H c) as [Hnone Hsome].
  destruct (H (CluedLetter.letter l)) as [Hnone0 Hsome0].
  assert (Hother : Ascii.eqb c (CluedLetter.letter l) = false ->
            ((mapGet c info = None <->
              forall l', In l' (letters ++ [l]) -> CluedLetter.letter l' <> c)
             /\ (forall k, mapGet c info = Some k ->
                 (exists l', In l' (letters ++ [l]) /\ CluedLetter.letter l' = c
                             /\ CluedLetter.clue l' = k)
                 /\ (forall l', In l' (letters ++ [l]) ->
                     CluedLetter.letter l' = c ->
                     clueRank (CluedLetter.clue l') <= clueRank k)))).
  { intros E. apply Ascii.eqb_neq in E. split.
    - rewrite Hnone. split.
      + intros Hn l' Hin. apply in_app_or in Hin as [Hin|[<-|[]]]; auto.
      + intros Hn l' Hin. apply Hn, in_or_app. now left.
    - intros k Hk. destruct (Hsome k Hk) as [(l' & Hin & Hl & Hc) Hmax]. split.
      + exists l'. split; [apply in_or_app; now left | auto].
      + intros l'' Hin'' Hl''.
        apply in_app_or in Hin'' as [Hin''|[<-|[]]]; [now apply Hmax|].
        congruence. }
  assert (Hset : forall k0,
            k0 = CluedLetter.clue l ->
            (forall l', In l' letters ->
               CluedLetter.letter l' = CluedLetter.letter l ->
               clueRank (CluedLetter.clue l') <= clueRank k0) ->
            (mapGet c (mapSet (CluedLetter.letter l) k0 info) = None <->
             forall l', In l' (letters ++ [l]) -> CluedLetter.letter l' <> c)
            /\ (forall k, mapGet c (mapSet (CluedLetter.letter l) k0 info) = Some k ->
                (exists l', In l' (letters ++ [l]) /\ CluedLetter.letter l' = c
                            /\ CluedLetter.clue l' = k)
                /\ (forall l', In l' (letters ++ [l]) ->
                    CluedLetter.letter l' = c ->
                    clueRank (CluedLetter.clue l') <= clueRank k))).
  { intros k0 -> Hbound. rewrite mapGet_mapSet.
    destruct (Ascii.eqb c (CluedLetter.letter l)) eqn:E; [|now apply Hother].
    apply Ascii.eqb_eq in E. subst c. split.
    - split; [discriminate|]. intros Hn. exfalso.
      apply (Hn l); [apply in_or_app; right; now left | reflexivity].
    - intros k [= <-]. split.
      + exists l. split; [apply in_or_app; right; now left | auto].
      + intros l' Hin Hl.
        apply in_app_or in Hin as [Hin|[<-|[]]]; [now apply Hbound | lia]. }
  unfold noteLetter.
  destruct (mapGet (CluedLetter.letter l) info) as [old|] eqn:Eold.
  - destruct (Hsome0 old eq_refl) as [Hex Hmax0].
    destruct (clueRank old <? clueRank (CluedLetter.clue l))%nat eqn:Elt.
    + apply Nat.ltb_lt in Elt. apply Hset; [reflexivity|].
      intros l' Hin Hl. specialize (Hmax0 l' Hin Hl). lia.
    + apply Nat.ltb_ge in Elt.
      destruct (Ascii.eqb c (CluedLetter.letter l)) eqn:E; [|now apply Hother].
      apply Ascii.eqb_eq in E. subst c. rewrite Eold. split.
      * split; [discriminate|]. intros Hn. exfalso.
        apply (Hn l); [apply in_or_app; right; now left | reflexivity].
      * intros k [= <-]. split.
        -- destruct Hex as (l' & Hin & Hl & Hc).
           exists l'. split; [apply in_or_app; now left | auto].
        -- intros l' Hin Hl.
           apply in_app_or in Hin as [Hin|[<-|[]]]; [now apply Hmax0 | exact Elt].
  - apply Hset; [reflexivity|].
    intros l' Hin Hl. exfalso. now apply (proj1 Hnone0 eq_refl l' Hin).
Qed.

Lemma fold_noteLetter_best more : forall info letters,
  bestClues info letters ->
  bestClues (fold_left noteLetter more info) (letters ++ more).
Proof.
  induction more as [|l more IH]; intros info letters H; simpl.
  - now rewrite app_nil_r.
  - replace (letters ++ l :: more) with ((letters ++ [l]) ++ more)
      by now rewrite <- app_assoc.
    apply IH. now apply noteLetter_best.
Qed.

Lemma bestClues_nil : bestClues [] [].
Proof.
  intros c. split.
  - split; [intros _ l [] | reflexivity].
  - intros k H. discriminate H.
Qed.

Lemma secondPass_letters guess : forall target rest,
  map CluedLetter.letter (secondPass guess target rest) = guess.
Proof.
  induction guess as [|c guess IH]; intros target rest; simpl; [reflexivity|].
  destruct (match target with [] => false | d :: _ => Ascii.eqb c d end);
    [|destruct (consume c rest)]; simpl; now rewrite IH.
Qed.

(** A clue sequence carries the letters of the guess, so it is determined
    by its clues. *)
Lemma clue_determined_by_clues g t t' :
  cluesOf (clue g t) = cluesOf (clue g t') -> clue g t = clue g t'.
Proof.
  intros H.
  assert (Hl : map CluedLetter.letter (clue g t)
               = map CluedLetter.letter (clue g t'))
    by (unfold clue; now rewrite !secondPass_letters).
  revert H Hl. unfold cluesOf. generalize (clue g t'), (clue g t).
  induction l as [|[c a] l IH]; intros [|[c' a'] l'] H Hl; simpl in *;
    try discriminate; [reflexivity|].
  injection H as -> H. injection Hl as -> Hl. f_equal. now apply IH.
Qed.

Section Render.

Variable props : GameProps.

(** With a defined target every row is rendered; the row of an index does
    not depend on the letter information gathered so far. *)
Lemma renderRows_defined st tg indices : forall info,
  target st = Some tg ->
  renderRows st indices info
  = Some (map (fun i => fst (renderRow st tg [] i)) indices,
          fold_left (fun info i => snd (renderRow st tg info i)) indices info).
Proof.
  induction indices as [|i indices IH]; intros info Ht; simpl; [reflexivity|].
  rewrite Ht.
  destruct (renderRow st tg info i) as [row info'] eqn:E.
  rewrite IH by assumption.
  unfold renderRow in E. injection E as <- <-. reflexivity.
Qed.

(** The rows of the locked guesses. *)
Lemma locked_rows st tg gs : forall pre,
  guesses st = (pre ++ gs)%list ->
  map (fun i => fst (renderRow st tg [] i)) (seq (List.length pre) (List.length gs))
  = map (fun p => RowProps.mk (fst p) (wordLength st) LockedIn (clue (snd p) tg))
      (combine (seq (List.length pre) (List.length gs)) gs)
  /\ forall info,
       fold_left (fun info i => snd (renderRow st tg info i))
         (seq (List.length pre) (List.length gs)) info
       = fold_left noteLetter (List.concat (map (fun g => clue g tg) gs)) info.
Proof.
  induction gs as [|g gs IH]; intros pre Hg; [split; reflexivity|].
  assert (Hnth : nth_error (guesses st ++ [currentGuess st]) (List.length pre)
                 = Some g).
  { rewrite Hg, <- app_assoc, nth_error_app2, Nat.sub_diag by lia. reflexivity. }
  assert (Hlocked : (List.length pre <? List.length (guesses st))%nat = true).
  { apply Nat.ltb_lt. rewrite Hg, length_app. simpl. lia. }
  destruct (IH (pre ++ [g])%list) as [Hrows Hinfo];
    [now rewrite <- app_assoc|].
  rewrite length_app, Nat.add_1_r in Hrows, Hinfo.
  cbn [List.length seq map combine fold_left List.concat]. split.
  - rewrite Hrows. f_equal.
    unfold renderRow. now rewrite Hnth, Hlocked.
  - intros info. rewrite Hinfo, fold_left_app. f_equal.
    unfold renderRow. now rewrite Hnth, Hlocked.
Qed.

(** The rows below the locked guesses: the input row, then empty rows.
    They add nothing to the letter information. *)
Lemma pending_rows st tg k :
  map (fun i => fst (renderRow st tg [] i)) (seq (List.length (guesses st)) k)
  = match k with
    | 0 => []
    | S k' =>
        RowProps.mk (List.length (guesses st)) (wordLength st) Pending
          (clue (currentGuess st) tg)
        :: map (fun i => RowProps.mk i (wordLength st) Pending [])
             (seq (S (List.length (guesses st))) k')
    end
  /\ forall info,
       fold_left (fun info i => snd (renderRow st tg info i))
         (seq (List.length (guesses st)) k) info
       = info.
Proof.
  split.
  - destruct k as [|k]; [reflexivity|]. cbn [seq map]. f_equal.
    + unfold renderRow.
      rewrite nth_error_app2, Nat.sub_diag, Nat.ltb_irrefl by lia. reflexivity.
    + apply map_ext_in. intros i Hi. apply in_seq in Hi. unfold renderRow.
      replace (nth_error (guesses st ++ [currentGuess st]) i) with (@None string)
        by (symmetry; apply nth_error_None; rewrite length_app; simpl; lia).
      replace (i <? List.length (guesses st))%nat with false
        by (symmetry; apply Nat.ltb_ge; lia).
      reflexivity.
  - intros info.
    assert (H : forall indices,
               (forall i, In i indices -> List.length (guesses st) <= i) ->
               fold_left (fun info i => snd (renderRow st tg info i)) indices info
               = info).
    { induction indices as [|i indices IH]; intros Hall; [reflexivity|].
      simpl. replace (i <? List.length (guesses st))%nat with false
        by (symmetry; apply Nat.ltb_ge, Hall; now left).
      apply IH. intros; apply Hall; now right. }
    apply H. intros i Hi. apply in_seq in Hi. lia.
Qed.

Lemma map_combine_snd {A B C} (f : B -> C) (l : list A) : forall l' : list B,
  List.length l = List.length l' ->
  map (fun p => f (snd p)) (combine l l') = map f l'.
Proof.
  induction l as [|x l IH]; intros [|y l'] H; simpl in *; try discriminate;
    [reflexivity|]. f_equal. apply IH. lia.
Qed.

Lemma map_combine_fst {A B C} (f : A -> C) (l : list A) : forall l' : list B,
  List.length l = List.length l' ->
  map (fun p => f (fst p)) (combine l l') = map f l.
Proof.
  induction l as [|x l IH]; intros [|y l'] H; simpl in *; try discriminate;
    [reflexivity|]. f_equal. apply IH. lia.
Qed.

Lemma map_const {A B} (x : B) (l : list A) :
  map (fun _ => x) l = repeat x (List.length l).
Proof. induction l; simpl; congruence. Qed.

(** What [render] returns on a defined target when the locked guesses fit
    in the grid. *)
Lemma render_defined st tg :
  target st = Some tg ->
  List.length (guesses st) <= maxGuesses props ->
  render props st
  = Some
      (map (fun p => RowProps.mk (fst p) (wordLength st) LockedIn (clue (snd p) tg))
         (combine (seq 0 (List.length (guesses st))) (guesses st))
       ++ match maxGuesses props - List.length (guesses st) with
          | 0 => []
          | S k' =>
              RowProps.mk (List.length (guesses st)) (wordLength st) Pending
                (clue (currentGuess st) tg)
              :: map (fun i => RowProps.mk i (wordLength st) Pending [])
                   (seq (S (List.length (guesses st))) k')
          end,
       fold_left noteLetter (lockedLetters st tg) []).
Proof.
  intros Ht Hmax. unfold render. rewrite (renderRows_defined st tg) by assumption.
  replace (maxGuesses props)
    with (List.length (guesses st) + (maxGuesses props - List.length (guesses st)))
    at 1 2 by lia.
  rewrite seq_app, map_app, fold_left_app.
  change (0 + List.length (guesses st)) with (List.length (guesses st)).
  destruct (locked_rows st tg (guesses st) [] eq_refl) as [Hrows Hinfo].
  destruct (pending_rows st tg (maxGuesses props - List.length (guesses st)))
    as [Hprows Hpinfo].
  cbn [List.length] in Hrows, Hinfo.
  rewrite Hrows, Hprows, Hpinfo, Hinfo. reflexivity.
Qed.

Variables dictionary common names : list string.

(** X21.  Whenever the component waits for an event with a defined target,
    the grid has [maxGuesses] rows, numbered from 0, all with the current
    word length: first one locked row per locked guess, with the clues of
    that guess against the target, then pending rows, of which the first
    shows the input row and the others are empty. *)
Theorem rendered_rows st tg :
  reachable dictionary common names props st ->
  target st = Some tg ->
  exists rows info,
    render props st = Some (rows, info)
    /\ map RowProps.key rows = seq 0 (maxGuesses props)
    /\ Forall (fun row => RowProps.wordLength row = wordLength st) rows
    /\ map RowProps.rowState rows
       = (repeat LockedIn (List.length (guesses st))
          ++ repeat Pending (maxGuesses props - List.length (guesses st)))%list
    /\ map RowProps.cluedLetters rows
       = (map (fun g => clue g tg) (guesses st)
          ++ match maxGuesses props - List.length (guesses st) with
             | 0 => []
             | S k' => clue (currentGuess st) tg :: repeat [] k'
             end)%list.
Proof.
  intros Hr Ht.
  destruct (reachable_Rows _ _ _ _ _ Hr) as (_ & _ & _ & Hmax).
  rewrite (render_defined st tg Ht Hmax).
  do 2 eexists. split; [reflexivity|].
  set (len := List.length (guesses st)) in *.
  set (k := maxGuesses props - len).
  assert (Hseq : List.length (seq 0 len) = List.length (guesses st))
    by now rewrite length_seq.
  rewrite !map_app, !map_map. cbn [RowProps.key RowProps.rowState
    RowProps.cluedLetters fst snd].
  rewrite (map_combine_fst (fun i => i) _ _ Hseq), map_id.
  rewrite (map_combine_snd (fun g => clue g tg) _ _ Hseq).
  split; [|split; [|split]].
  - replace (maxGuesses props) with (len + k) by (unfold k; lia).
    rewrite seq_app. f_equal. simpl.
    destruct k as [|k']; [reflexivity|]. cbn [map seq RowProps.key].
    f_equal. rewrite map_map. apply map_id.
  - apply Forall_app. split.
    + apply Forall_forall. intros row Hrow.
      apply in_map_iff in Hrow as [p [<- _]]. reflexivity.
    + destruct k as [|k']; [constructor|]. constructor; [reflexivity|].
      apply Forall_forall. intros row Hrow.
      apply in_map_iff in Hrow as [p [<- _]]. reflexivity.
  - f_equal.
    + rewrite (map_combine_snd (fun _ => LockedIn) _ _ Hseq).
      apply map_const.
    + destruct k as [|k']; [reflexivity|]. cbn [map repeat RowProps.rowState].
      f_equal. rewrite map_map. cbn [RowProps.rowState].
      now rewrite map_const, length_seq.
  - f_equal. destruct k as [|k']; [reflexivity|].
    cbn [map RowProps.cluedLetters]. f_equal. rewrite map_map.
    cbn [RowProps.cluedLetters].
    now rewrite map_const, length_seq.
Qed.

End Render.

Lemma firstn_exact {A} n (l l' : list A) :
  List.length l = n -> firstn n (l ++ l') = l.
Proof.
  intros <-. rewrite firstn_app, Nat.sub_diag, firstn_all. simpl.
  apply app_nil_r.
Qed.

Section Keyboard.

Variables dictionary common names : list string.
Variable props : GameProps.

(** X22.  Whenever the component waits for an event with a defined target,
    the letter information given to the keyboard has an entry exactly for
    the letters that occur in a locked guess, and the entry of a letter is
    the best clue that letter received in any locked guess. *)
Theorem letter_info_is_the_best_clue st tg :
  reachable dictionary common names props st ->
  target st = Some tg ->
  exists rows info,
    render props st = Some (rows, info)
    /\ bestClues info (lockedLetters st tg).
Proof.
  intros Hr Ht.
  destruct (reachable_Rows _ _ _ _ _ Hr) as (_ & _ & _ & Hmax).
  rewrite (render_defined props st tg Ht Hmax).
  do 2 eexists. split; [reflexivity|].
  apply (fold_noteLetter_best (lockedLetters st tg) [] []), bestClues_nil.
Qed.

(** X23.  What the player sees does not tell the candidates of the pool
    apart: whenever the component waits for an event, rendering against
    any candidate left in the pool instead of the target gives the same
    locked rows and the same letter information. *)
Theorem rendering_hides_the_target st tg t :
  reachable dictionary common names props st ->
  target st = Some tg ->
  In t (targets st) ->
  exists rows rows' info,
    render props st = Some (rows, info)
    /\ render props (setTarget (Some t) st) = Some (rows', info)
    /\ firstn (List.length (guesses st)) rows'
       = firstn (List.length (guesses st)) rows.
Proof.
  intros Hr Ht Hin.
  destruct (reachable_Rows _ _ _ _ _ Hr) as (_ & _ & _ & Hmax).
  pose proof (reachable_Inv _ _ _ _ _ Hr) as HInv.
  assert (Hsame : forall g, In g (guesses st) -> clue g t = clue g tg).
  { intros g Hg. apply clue_determined_by_clues.
    destruct (inv_consistent _ _ _ _ _ HInv g t Hg Hin) as (tg' & Ht' & Hc).
    congruence. }
  rewrite (render_defined props st tg Ht Hmax).
  rewrite (render_defined props (setTarget (Some t) st) t eq_refl Hmax).
  assert (Hlen : forall A (f : nat * string -> A),
             List.length (map f (combine (seq 0 (List.length (guesses st)))
                                   (guesses st)))
             = List.length (guesses st))
    by (intros; rewrite length_map, length_combine, length_seq; lia).
  assert (Hletters : lockedLetters (setTarget (Some t) st) t
                     = lockedLetters st tg).
  { unfold lockedLetters. simpl. f_equal. now apply map_ext_in. }
  rewrite Hletters.
  do 3 eexists. split; [reflexivity|]. split; [reflexivity|].
  simpl guesses. simpl wordLength. simpl currentGuess.
  rewrite !firstn_exact by apply Hlen.
  apply map_ext_in. intros [i g] Hp.
  apply in_combine_r in Hp. simpl. now rewrite Hsame.
Qed.

End Keyboard.

(** The example session mounted on the target "angle", after the guess
    "apple": two candidates are left. *)
Lemma guessed_apple_reachable :
  reachable demoDictionary demoCommon demoNames demoProps
    (mkState Playing ["apple"] "" 5 "" ["angle"; "ankle"] (Some "angle")).
Proof.
  apply (run_reachable _ _ _ _ (typeWord 0 "apple" ++ pressEnter 0 0)
           (mkState Playing [] "" 5 "Make your first guess!"
              ["apple"; "angle"; "ankle"; "maple"] (Some "angle"))).
  - now apply (reachable_mount _ _ _ _ 0 1 _ [4]).
  - vm_compute. reflexivity.
Qed.

Lemma rendered_rows_witness :
  exists rows info,
    render demoProps
      (mkState Playing ["apple"] "" 5 "" ["angle"; "ankle"] (Some "angle"))
    = Some (rows, info)
    /\ map RowProps.key rows = seq 0 6
    /\ Forall (fun row => RowProps.wordLength row = 5) rows
    /\ map RowProps.rowState rows
       = (repeat LockedIn 1 ++ repeat Pending (6 - 1))%list
    /\ map RowProps.cluedLetters rows
       = (map (fun g => clue g "angle") ["apple"]
          ++ match 6 - 1 with
             | 0 => []
             | S k' => clue "" "angle" :: repeat [] k'
             end)%list.
Proof.
  apply (rendered_rows demoProps demoDictionary demoCommon demoNames
           (mkState Playing ["apple"] "" 5 "" ["angle"; "ankle"] (Some "angle"))
           "angle").
  - apply guessed_apple_reachable.
  - reflexivity.
Defined.

Lemma letter_info_is_the_best_clue_witness :
  exists rows info,
    render demoProps
      (mkState Playing ["apple"] "" 5 "" ["angle"; "ankle"] (Some "angle"))
    = Some (rows, info)
    /\ bestClues info
         (lockedLetters
            (mkState Playing ["apple"] "" 5 "" ["angle"; "ankle"] (Some "angle"))
            "angle").
Proof.
  apply (letter_info_is_the_best_clue demoDictionary demoCommon demoNames demoProps
           (mkState Playing ["apple"] "" 5 "" ["angle"; "ankle"] (Some "angle"))
           "angle").
  - apply guessed_apple_reachable.
  - reflexivity.
Defined.

Lemma rendering_hides_the_target_witness :
  exists rows rows' info,
    render demoProps
      (mkState Playing ["apple"] "" 5 "" ["angle"; "ankle"] (Some "angle"))
    = Some (rows, info)
    /\ render demoProps
         (setTarget (Some "ankle")
            (mkState Playing ["apple"] "" 5 "" ["angle"; "ankle"] (Some "angle")))
       = Some (rows', info)
    /\ firstn 1 rows' = firstn 1 rows.
Proof.
  apply (rendering_hides_the_target demoDictionary demoCommon demoNames demoProps
           (mkState Playing ["apple"] "" 5 "" ["angle"; "ankle"] (Some "angle"))
           "angle" "ankle").
  - apply guessed_apple_reachable.
  - reflexivity.
  - simpl. right. left. reflexivity.
Defined.

Example letter_info_after_two_guesses :
  render demoProps
    (mkState Playing ["maple"; "angle"] "ap" 5 "" ["apple"] (Some "apple"))
  = Some
      ([RowProps.mk 0 5 LockedIn (clue "maple" "apple");
        RowProps.mk 1 5 LockedIn (clue "angle" "apple");
        RowProps.mk 2 5 Pending (clue "ap" "apple");
        RowProps.mk 3 5 Pending []; RowProps.mk 4 5 Pending [];
        RowProps.mk 5 5 Pending []],
       [("m"%char, Absent); ("a"%char, Correct); ("p"%char, Correct);
        ("l"%char, Correct); ("e"%char, Correct); ("n"%char, Absent);
        ("g"%char, Absent)]).
Proof. vm_compute. reflexivity. Qed.
